(** * A gravitational N-body simulator: the physics core of [2d.js] and of
    its three-dimensional sibling

    The two source files share one engine.  Each keeps an array [bodies] of
    [Body] objects (position, velocity, acceleration, mass) and, once per
    animation frame, runs [animate]: a double loop over the pairs [i < j]
    that accumulates the gravitational pull into the [acc] fields, then
    [Body.update] on every body, and (in the bounded two-dimensional file
    only) the reflection at the walls of the square [-3, 3] x [-3, 3].
    The bounded file also centres and rescales the bodies once, before the
    first frame.

    JavaScript numbers are IEEE 754 binary64 values.  The engine is written
    here once, over an interface [Number] of the arithmetic the source uses,
    and read at two instances:
    - [float], Rocq's primitive binary64 numbers, on which the code runs
      exactly as the source does;
    - [R], the real numbers, the exact arithmetic in which the algebraic
      properties of the engine are stated.
    The statements that only depend on the shape of the code are proved for
    every instance at once.

    The vectors are the [THREE.Vector2] and [THREE.Vector3] of three.js; the
    methods the source calls are transcribed from that library.

    The array [bodies] is a list, read with [!!] and written with [alter];
    every body owns its three vectors (no two bodies share one), so a body
    is a record of values.  The constants [dt] and [min] of a file are
    parameters of its [animate]; the values the file gives them are the
    constants [dt] and [min] of its module.  The numbers [Math.random]
    returns before the first frame are an input of the initial sequence;
    [animate] draws none.  What else a frame can reach is kept in a [Page]:
    the meshes, which a frame moves to the positions of the bodies, and what
    the renderer has drawn. *)

From Stdlib Require Import ZArith Reals Lra Psatz Floats Bool.
From stdpp Require Import base list.

Set Warnings "-inexact-float".

(** ** Numbers *)

(** The arithmetic of the source: literals, [+ - * /], [Math.sqrt],
    [Math.max] on two arguments, [<] and [<=]. *)
Class Number (K : Type) : Type := {
  fromZ : Z -> K;
  nadd : K -> K -> K;
  nsub : K -> K -> K;
  nmul : K -> K -> K;
  ndiv : K -> K -> K;
  Math_sqrt : K -> K;
  Math_max : K -> K -> K;
  nltb : K -> K -> bool;
  nleb : K -> K -> bool
}.

Declare Scope js_scope.
Delimit Scope js_scope with js.
Infix "+" := nadd : js_scope.
Infix "-" := nsub : js_scope.
Infix "*" := nmul : js_scope.
Infix "/" := ndiv : js_scope.
Infix "<?" := nltb : js_scope.
Infix "<=?" := nleb : js_scope.
Notation "a >=? b" := (nleb b a) (at level 70) : js_scope.
Notation "# z" := (fromZ z%Z) (at level 5, format "# z") : js_scope.

(** A decimal literal [m / 10^e], such as [0.001] or [0.0001].  On
    [float] the division is correctly rounded, so that the value is the
    binary64 number nearest to the decimal, which is how JavaScript reads
    the literal. *)
Definition decimal `{Number K} (m : Z) (e : nat) : K :=
  (#m / #(10 ^ Z.of_nat e))%js.

(** *** Binary64 *)

Definition float_of_Z (z : Z) : float :=
  if (z <? 0)%Z then PrimFloat.opp (of_uint63 (Uint63.of_Z (- z)))
  else of_uint63 (Uint63.of_Z z).

(** [Math.max(a, b)]: [NaN] if either argument is, and [+0] above [-0]. *)
Definition float_max (a b : float) : float :=
  if is_nan a || is_nan b then nan
  else if PrimFloat.ltb a b then b
  else if PrimFloat.ltb b a then a
  else if get_sign a then b else a.

#[global] Instance float_number : Number float := {|
  fromZ := float_of_Z;
  nadd := PrimFloat.add;
  nsub := PrimFloat.sub;
  nmul := PrimFloat.mul;
  ndiv := PrimFloat.div;
  Math_sqrt := PrimFloat.sqrt;
  Math_max := float_max;
  nltb := PrimFloat.ltb;
  nleb := PrimFloat.leb
|}.

(** *** Real numbers *)

#[global] Instance Rlt_decision : RelDecision Rlt := Rlt_dec.
#[global] Instance Rle_decision : RelDecision Rle := Rle_dec.

#[global] Instance real_number : Number R := {|
  fromZ := IZR;
  nadd := Rplus;
  nsub := Rminus;
  nmul := Rmult;
  ndiv := Rdiv;
  Math_sqrt := R_sqrt.sqrt;
  Math_max := Rmax;
  nltb := fun a b => bool_decide (a < b)%R;
  nleb := fun a b => bool_decide (a <= b)%R
|}.

(** ** Vectors of three.js *)

(** What the engine needs of a vector type, whatever its dimension. *)
Class Vector (K V : Type) : Type := {
  vzero : V;
  add : V -> V -> V;
  sub : V -> V -> V;
  multiplyScalar : V -> K -> V;
  lengthSq : V -> K
}.
Arguments vzero {K V _}.
Arguments add {K V _} _ _.
Arguments sub {K V _} _ _.
Arguments multiplyScalar {K V _} _ _.
Arguments lengthSq {K V _} _.

(** [divideScalar(s)] is [multiplyScalar(1 / s)] in three.js. *)
Definition divideScalar `{Number K} `{!Vector K V} (v : V) (s : K) : V :=
  multiplyScalar v (#1 / s)%js.

Module Vector2.
Record t (K : Type) : Type := mk { x : K; y : K }.
Arguments mk {K} _ _.
Arguments x {K} _.
Arguments y {K} _.

Section Ops.
Context `{Number K}.
Open Scope js_scope.

Definition add (a v : t K) : t K := mk (x a + x v) (y a + y v).
Definition sub (a v : t K) : t K := mk (x a - x v) (y a - y v).
Definition multiplyScalar (a : t K) (s : K) : t K :=
  mk (x a * s) (y a * s).
Definition lengthSq (a : t K) : K := x a * x a + y a * y a.
Definition length (a : t K) : K := Math_sqrt (x a * x a + y a * y a).
End Ops.
End Vector2.

Module Vector3.
Record t (K : Type) : Type := mk { x : K; y : K; z : K }.
Arguments mk {K} _ _ _.
Arguments x {K} _.
Arguments y {K} _.
Arguments z {K} _.

Section Ops.
Context `{Number K}.
Open Scope js_scope.

Definition add (a v : t K) : t K :=
  mk (x a + x v) (y a + y v) (z a + z v).
Definition sub (a v : t K) : t K :=
  mk (x a - x v) (y a - y v) (z a - z v).
Definition multiplyScalar (a : t K) (s : K) : t K :=
  mk (x a * s) (y a * s) (z a * s).
Definition lengthSq (a : t K) : K := x a * x a + y a * y a + z a * z a.
End Ops.
End Vector3.

#[global] Instance vector2 `{Number K} : Vector K (Vector2.t K) := {|
  vzero := Vector2.mk (#0)%js (#0)%js;
  add := Vector2.add;
  sub := Vector2.sub;
  multiplyScalar := Vector2.multiplyScalar;
  lengthSq := Vector2.lengthSq
|}.

#[global] Instance vector3 `{Number K} : Vector K (Vector3.t K) := {|
  vzero := Vector3.mk (#0)%js (#0)%js (#0)%js;
  add := Vector3.add;
  sub := Vector3.sub;
  multiplyScalar := Vector3.multiplyScalar;
  lengthSq := Vector3.lengthSq
|}.

(** ** Bodies *)

Record Body (V K : Type) : Type := mkBody {
  pos : V;
  vel : V;
  acc : V;
  mass : K
}.
Arguments mkBody {V K} _ _ _ _.
Arguments pos {V K} _.
Arguments vel {V K} _.
Arguments acc {V K} _.
Arguments mass {V K} _.

Definition set_pos {V K} (p : V) (b : Body V K) : Body V K :=
  mkBody p (vel b) (acc b) (mass b).
Definition set_vel {V K} (v : V) (b : Body V K) : Body V K :=
  mkBody (pos b) v (acc b) (mass b).
Definition set_acc {V K} (a : V) (b : Body V K) : Body V K :=
  mkBody (pos b) (vel b) a (mass b).

Section Engine.
Context `{Number K} `{!Vector K V}.
Open Scope js_scope.

(** The constructor: the acceleration starts at the zero vector. *)
Definition new_Body (pos vel : V) (mass : K) : Body V K :=
  mkBody pos vel vzero mass.

(** [Body.update(dt)]: three assignments, in the order of the source; each
    reads the fields as the one before it left them. *)
Definition update (dt : K) (this : Body V K) : Body V K :=
  let this := set_pos (add (pos this) (multiplyScalar (vel this) dt)) this in
  let this := set_vel (add (vel this) (multiplyScalar (acc this) dt)) this in
  set_acc vzero this.

(** *** The pairwise force loop of [animate] *)

(** [mag]: the distance, raised to 1 when it is below 1. *)
Definition floor_mag (magSq : K) : K :=
  let mag := Math_sqrt magSq in
  if mag <? #1 then #1 else mag.

(** The divisor [Math.max(magSq, min) * mag] of [tmp]; [magSq] is
    [r.lengthSq()] in the unbounded file and the same sum of squares, written
    out, in the bounded one. *)
Definition divisor (min : K) (r : V) : K :=
  let magSq := lengthSq r in
  Math_max magSq min * floor_mag magSq.

(** [tmp]: the vector from body [i] to body [j], over the divisor. *)
Definition force_dir (min : K) (p1 p2 : V) : V :=
  let r := sub p2 p1 in
  divideScalar r (divisor min r).

Definition acc_add (v : V) (b : Body V K) : Body V K :=
  set_acc (add (acc b) v) b.
Definition acc_sub (v : V) (b : Body V K) : Body V K :=
  set_acc (sub (acc b) v) b.

(** The body of the inner loop, for the pair [(i, j)]; [p1] and [m1] were
    read from [bodies[i]] by the outer loop.  The loops only produce indices
    inside the array, so that the [None] branch is never run. *)
Definition pair_step (min : K) (i : nat) (p1 : V) (m1 : K)
    (bodies : list (Body V K)) (j : nat) : list (Body V K) :=
  match bodies !! j with
  | Some bj =>
      let p2 := pos bj in
      let m2 := mass bj in
      let tmp := force_dir min p1 p2 in
      let bodies := alter (acc_add (multiplyScalar tmp m2)) i bodies in
      alter (acc_sub (multiplyScalar tmp m1)) j bodies
  | None => bodies
  end.

(** [for (let j = i + 1; j < bodies.length; j++)]. *)
Definition inner_loop (min : K) (bodies : list (Body V K)) (i : nat)
    : list (Body V K) :=
  match bodies !! i with
  | Some bi =>
      let p1 := pos bi in
      let m1 := mass bi in
      foldl (pair_step min i p1 m1) bodies (seq (S i) (length bodies - S i))
  | None => bodies
  end.

(** [for (let i = 0; i < bodies.length; i++)]: the accumulation pass. *)
Definition accumulate (min : K) (bodies : list (Body V K))
    : list (Body V K) :=
  foldl (inner_loop min) bodies (seq 0 (length bodies)).

(** The fields the force loop has no assignment to. *)
Definition frame (b : Body V K) : V * V * K := (pos b, vel b, mass b).

(** Two bodies in the same state, field by field. *)
Definition same_state (b1 b2 : Body V K) : Prop :=
  pos b1 = pos b2 /\ vel b1 = vel b2 /\ acc b1 = acc b2 /\ mass b1 = mass b2.

(** The second phase of [animate] in the unbounded file:
    [bodies.forEach(body => body.update(dt))]. *)
Definition integrate (dt : K) (bodies : list (Body V K)) : list (Body V K) :=
  map (update dt) bodies.
End Engine.

(** ** The unbounded file (three dimensions) *)

Module Unbounded.
Section Unbounded.
Context `{Number K}.
Open Scope js_scope.

Definition n : nat := 100.
Definition dt : K := decimal 1 2.
Definition min : K := decimal 1 4.
Definition mass0 : K := #1.

(** One call of [randSphere]: the sines and cosines of the two angles drawn,
    and the radius drawn. *)
Record Draw : Type := mkDraw {
  cos_theta : K; sin_theta : K; cos_phi : K; sin_phi : K; radius : K
}.

Definition randSphere (d : Draw) : Vector3.t K :=
  Vector3.mk (sin_phi d * cos_theta d * radius d)
             (sin_phi d * sin_theta d * radius d)
             (cos_phi d * radius d).

(** The creation loop; [draws i] holds the two calls of [randSphere] made
    for body [i], the position first. *)
Definition create (mass : K) (n : nat) (draws : nat -> Draw * Draw)
    : list (Body (Vector3.t K) K) :=
  map (fun i =>
         let pos := randSphere (fst (draws i)) in
         let vel := multiplyScalar (randSphere (snd (draws i))) (decimal 2 2) in
         new_Body pos vel mass)
      (seq 0 n).

(** [animate], with the constants [dt] and [min] of the file as
    parameters: the force loop, then the update of every body. *)
Definition animate (dt min : K) (bodies : list (Body (Vector3.t K) K))
    : list (Body (Vector3.t K) K) :=
  integrate dt (accumulate min bodies).

(** The state after [k] frames. *)
Definition run (dt min : K) (k : nat) (bodies : list (Body (Vector3.t K) K))
    : list (Body (Vector3.t K) K) :=
  Nat.iter k (animate dt min) bodies.
End Unbounded.
Arguments Draw K : clear implicits.
Arguments mkDraw {K} _ _ _ _ _.
End Unbounded.

(** ** The bounded file (two dimensions) *)

Module Bounded.
Section Bounded.
Context `{Number K}.
Open Scope js_scope.

Definition n : nat := 100.
Definition dt : K := decimal 1 3.
Definition min : K := decimal 1 4.
Definition mass0 : K := #2.

(** *** Initial state *)

(** One call of [randDisc]: the values of [Math.cos(theta)] and
    [Math.sin(theta)] for the angle drawn, and the radius drawn. *)
Record Draw : Type := mkDraw { cos_theta : K; sin_theta : K; radius : K }.

Definition randDisc (d : Draw) : Vector2.t K :=
  Vector2.mk (cos_theta d * radius d) (sin_theta d * radius d).

(** The creation loop; [draws i] holds the two calls of [randDisc] made for
    body [i], the position first. *)
Definition create (mass : K) (n : nat) (draws : nat -> Draw * Draw)
    : list (Body (Vector2.t K) K) :=
  map (fun i =>
         let pos := randDisc (fst (draws i)) in
         let vel := multiplyScalar (randDisc (snd (draws i))) (decimal 2 3) in
         new_Body pos vel mass)
      (seq 0 n).

(** [bodies.reduce((sum, body) => sum.add(f(body).clone()
    .multiplyScalar(body.mass)), new THREE.Vector2(0, 0)).divideScalar(n)]. *)
Definition weighted_mean (f : Body (Vector2.t K) K -> Vector2.t K) (n : nat)
    (bodies : list (Body (Vector2.t K) K)) : Vector2.t K :=
  divideScalar
    (foldl (fun sum body => add sum (multiplyScalar (f body) (mass body)))
           vzero bodies)
    #(Z.of_nat n).

(** "Centering bodies". *)
Definition centering (n : nat) (bodies : list (Body (Vector2.t K) K))
    : list (Body (Vector2.t K) K) :=
  let velSum := weighted_mean vel n bodies in
  let posSum := weighted_mean pos n bodies in
  map (fun body =>
         let body := set_vel (sub (vel body) velSum) body in
         set_pos (sub (pos body) posSum) body)
      bodies.

(** [Math.max(...bodies.map(body => body.pos.length()))].  With no body at
    all JavaScript gives [-Infinity]; there is then no position to divide,
    and the value is not needed. *)
Definition max_radius (bodies : list (Body (Vector2.t K) K)) : option K :=
  match map (fun body => Vector2.length (pos body)) bodies with
  | [] => None
  | l :: ls => Some (foldl Math_max l ls)
  end.

Definition rescaling (bodies : list (Body (Vector2.t K) K))
    : list (Body (Vector2.t K) K) :=
  match max_radius bodies with
  | Some maxRadius =>
      map (fun body => set_pos (divideScalar (pos body) maxRadius) body) bodies
  | None => bodies
  end.

(** The whole initial sequence: sampling, centring, rescaling. *)
Definition init (mass : K) (n : nat) (draws : nat -> Draw * Draw)
    : list (Body (Vector2.t K) K) :=
  rescaling (centering n (create mass n draws)).

(** *** One frame *)

(** The test on one coordinate: [c <= -3 || c >= 3]. *)
Definition outside (c : K) : bool := (c <=? #(-3)) || (c >=? #3).

(** The two tests made on a body after its update. *)
Definition reflect (body : Body (Vector2.t K) K) : Body (Vector2.t K) K :=
  let body :=
    if outside (Vector2.x (pos body))
    then set_vel (Vector2.mk (Vector2.x (vel body) * #(-1))
                             (Vector2.y (vel body))) body
    else body in
  if outside (Vector2.y (pos body))
  then set_vel (Vector2.mk (Vector2.x (vel body))
                           (Vector2.y (vel body) * #(-1))) body
  else body.

(** [animate], with the constants [dt] and [min] of the file as parameters:
    the force loop, then for every body its update and the two tests. *)
Definition animate (dt min : K) (bodies : list (Body (Vector2.t K) K))
    : list (Body (Vector2.t K) K) :=
  map (fun body => reflect (update dt body)) (accumulate min bodies).

(** The state after [k] frames. *)
Definition run (dt min : K) (k : nat) (bodies : list (Body (Vector2.t K) K))
    : list (Body (Vector2.t K) K) :=
  Nat.iter k (animate dt min) bodies.
End Bounded.
Arguments Draw K : clear implicits.
Arguments mkDraw {K} _ _ _.
End Bounded.

(** ** Reading positions over the reals *)

(** Strictly inside the box on both axes. *)
Definition inside (p : Vector2.t R) : Prop :=
  (-3 < Vector2.x p < 3)%R /\ (-3 < Vector2.y p < 3)%R.

(** Where uniform motion from [p] at velocity [v] is at time [t]. *)
Definition position_at {V} `{!Vector R V} (p v : V) (t : R) : V :=
  add p (multiplyScalar v t).

(** The sum of a list of reals. *)
Definition Rsum (l : list R) : R := foldr Rplus 0%R l.

(** ** Binary64 numbers, read through their specification *)

(** The library specifies every operation on [float] through [Prim2SF],
    which reads a float as a [spec_float]: a zero, an infinity, [NaN], or a
    sign, a mantissa and an exponent. *)

(** The number of places by which the rounding of the mantissa [m] at the
    exponent [e] shifts it to the right. *)
Definition shift_of (m e : Z) : Z :=
  Z.max 0 (fexp prec emax (Zdigits2 m + e) - e)%Z.

(** What the rounding returns for the sign [s], the shifted mantissa [m] and
    the exponent [e]. *)
Definition sf_of (s : bool) (m e : Z) : spec_float :=
  match m with
  | Z0 => S754_zero s
  | Zpos p =>
      if (e <=? emax - prec)%Z then S754_finite s p e else S754_infinity s
  | Zneg _ => S754_nan
  end.

(** A number (not [NaN]) of sign [s]. *)
Definition sf_signed (s : bool) (x : spec_float) : Prop :=
  match x with
  | S754_zero s' | S754_infinity s' | S754_finite s' _ _ => s' = s
  | S754_nan => False
  end.

(** A zero or a finite number. *)
Definition sf_finite (x : spec_float) : Prop :=
  match x with
  | S754_zero _ | S754_finite _ _ _ => True
  | _ => False
  end.

(** A float that is [+0], a positive number or [+Infinity]. *)
Definition fnonneg (x : float) : Prop := sf_signed false (Prim2SF x).

(** Two floats that are the same number: the same bits, or equal as [==]
    has it (the two zeros). *)
Definition same_number (a b : float) : Prop :=
  a = b \/ PrimFloat.eqb a b = true.

(** Vectors whose coordinates are all finite. *)
Definition finite2 (p : Vector2.t float) : bool :=
  is_finite (Vector2.x p) && is_finite (Vector2.y p).
Definition finite3 (p : Vector3.t float) : bool :=
  is_finite (Vector3.x p) && is_finite (Vector3.y p) &&
  is_finite (Vector3.z p).

(** The opposite of a vector of floats, coordinate by coordinate. *)
Definition negated2 (v : Vector2.t float) : Vector2.t float :=
  Vector2.mk (- Vector2.x v)%float (- Vector2.y v)%float.
Definition negated3 (v : Vector3.t float) : Vector3.t float :=
  Vector3.mk (- Vector3.x v)%float (- Vector3.y v)%float
             (- Vector3.z v)%float.

(** ** A body on its own *)

(** The two tests of [reflect] both fail: the body is inside the box. *)
Definition clear_of_walls `{Number K} (b : Body (Vector2.t K) K) : bool :=
  negb (Bounded.outside (Vector2.x (pos b))) &&
  negb (Bounded.outside (Vector2.y (pos b))).

(** [k] times [pos.add(vel.clone().multiplyScalar(dt))], with the one
    velocity [v]. *)
Definition drift `{Number K} `{!Vector K V} (dt : K) (v : V) (k : nat) (p : V)
    : V :=
  Nat.iter k (fun q => add q (multiplyScalar v dt)) p.

(** ** The page around the bodies *)

Module Page.

(** A mesh of the scene: the colour that [Math.random] drew for it when it
    was created, and its position. *)
Record Mesh (K : Type) : Type := mkMesh { color : K; position : Vector3.t K }.
Arguments mkMesh {K} _ _.
Arguments color {K} _.
Arguments position {K} _.

(** What the browser has for a frame: the time stamp that
    [requestAnimationFrame] passes to its callback, and the numbers that
    [Math.random] would return next. *)
Record Browser (K : Type) : Type := mkBrowser { now : K; random : nat -> K }.
Arguments mkBrowser {K} _ _.
Arguments now {K} _.
Arguments random {K} _ _.

(** The state a frame can reach: the array [bodies], the array [meshes], and
    what [renderer.render] has drawn so far (the positions of the meshes,
    frame after frame). *)
Record t (V K : Type) : Type := mk {
  bodies : list (Body V K);
  meshes : list (Mesh K);
  rendered : list (list (Vector3.t K))
}.
Arguments mk {V K} _ _ _.
Arguments bodies {V K} _.
Arguments meshes {V K} _.
Arguments rendered {V K} _.

Section Frames.
Context `{Number K}.
Open Scope js_scope.

(** [meshes.forEach((mesh, index) => { const body = bodies[index]; ... })]:
    every mesh is moved to where its body is.  [meshes] was made from
    [bodies], one mesh per body, so that [bodies[index]] is always there. *)
Definition move_meshes {V} (place : V -> Vector3.t K)
    (bodies : list (Body V K)) (meshes : list (Mesh K)) : list (Mesh K) :=
  imap (fun index mesh =>
          match bodies !! index with
          | Some body => mkMesh (color mesh) (place (pos body))
          | None => mesh
          end)
       meshes.

(** The whole of [animate] in the bounded file, as the callback that
    [requestAnimationFrame] runs: the physics, then
    [mesh.position.set(body.pos.x, body.pos.y, 0)] for every mesh, then the
    rendering.  The function is declared without a parameter and calls
    neither [Math.random] nor a clock. *)
Definition animate2 (dt min : K) (browser : Browser K)
    (page : t (Vector2.t K) K) : t (Vector2.t K) K :=
  let bodies := Bounded.animate dt min (bodies page) in
  let meshes :=
    move_meshes (fun p => Vector3.mk (Vector2.x p) (Vector2.y p) #0)
                bodies (meshes page) in
  mk bodies meshes (rendered page ++ [position <$> meshes]).

(** The same in the unbounded file, with [mesh.position.copy(body.pos)]. *)
Definition animate3 (dt min : K) (browser : Browser K)
    (page : t (Vector3.t K) K) : t (Vector3.t K) K :=
  let bodies := Unbounded.animate dt min (bodies page) in
  let meshes := move_meshes (fun p => p) bodies (meshes page) in
  mk bodies meshes (rendered page ++ [position <$> meshes]).

(** One frame for each element of [browsers], in order. *)
Definition frames2 (dt min : K) (browsers : list (Browser K))
    (page : t (Vector2.t K) K) : t (Vector2.t K) K :=
  foldl (fun page browser => animate2 dt min browser page) page browsers.

Definition frames3 (dt min : K) (browsers : list (Browser K))
    (page : t (Vector3.t K) K) : t (Vector3.t K) K :=
  foldl (fun page browser => animate3 dt min browser page) page browsers.
End Frames.
End Page.

(** ** Inputs on which the code is run *)

Section Inputs.
Context `{Number K}.
Open Scope js_scope.

(** The two bodies of the worked example: unit masses at [(-1, 0)] and
    [(1, 0)], at rest. *)
Definition two_bodies : list (Body (Vector2.t K) K) :=
  [ new_Body (Vector2.mk #(-1) #0) (Vector2.mk #0 #0) #1;
    new_Body (Vector2.mk #1 #0) (Vector2.mk #0 #0) #1 ].

(** Two bodies of masses 3 and 5, at [(-1, 0)] and [(2, 0)]. *)
Definition two_unequal_bodies : list (Body (Vector2.t K) K) :=
  [ new_Body (Vector2.mk #(-1) #0) (Vector2.mk #0 #0) #3;
    new_Body (Vector2.mk #2 #0) (Vector2.mk #0 #0) #5 ].

(** A sampling outcome: every angle drawn is 0 (cosine 1, sine 0), so that
    every vector lies on the positive x axis; the position radii drawn are
    0.25 and 0.75 in turn, the velocity radii are all 0.5. *)
Definition skewed_draws (i : nat) : Bounded.Draw K * Bounded.Draw K :=
  (Bounded.mkDraw #1 #0 (if Nat.even i then decimal 25 2 else decimal 75 2),
   Bounded.mkDraw #1 #0 (decimal 5 1)).

(** A body of mass 2 at [(2.9999995, 0)] moving right at [(0.001, 0)]: one
    step of [dt = 0.001] takes it across the wall [x = 3]. *)
Definition body_at_wall : Body (Vector2.t K) K :=
  new_Body (Vector2.mk (decimal 29999995 7) #0)
           (Vector2.mk (decimal 1 3) #0) #2.

(** A body that is outside the box on the x axis only. *)
Definition body_beyond_x : Body (Vector2.t K) K :=
  mkBody (Vector2.mk #4 #1) (Vector2.mk #1 #1) (Vector2.mk #0 #0) #2.
End Inputs.

(** ** What the accumulation pass leaves in a body *)

Section PassSpec.
Context `{Number K} `{!Vector K V}.

(** Body [k] is written once in every row [i < k] of the double loop, as the
    second body of the pair [(i, k)]: [tmp * mass_i] is subtracted. *)
Definition sub_step (min : K) (l : list (Body V K)) (k : nat) (a : V) (i : nat)
    : V :=
  match l !! i, l !! k with
  | Some bi, Some bk =>
      sub a (multiplyScalar (force_dir min (pos bi) (pos bk)) (mass bi))
  | _, _ => a
  end.

(** In its own row body [k] is written once per [j > k], as the first body
    of the pair [(k, j)]: [tmp * mass_j] is added. *)
Definition add_step (min : K) (l : list (Body V K)) (k : nat) (a : V) (j : nat)
    : V :=
  match l !! k, l !! j with
  | Some bk, Some bj =>
      add a (multiplyScalar (force_dir min (pos bk) (pos bj)) (mass bj))
  | _, _ => a
  end.

(** The acceleration of body [k] after the whole pass, from the
    acceleration [a] it had before: the subtractions of the rows
    [0 .. k - 1], then the additions of row [k], in the order of the loops. *)
Definition acc_after (min : K) (l : list (Body V K)) (k : nat) (a : V) : V :=
  foldl (add_step min l k) (foldl (sub_step min l k) a (seq 0 k))
        (seq (S k) (length l - S k)).

(** The acceleration of body [k] when the outer loop is in row [i] and the
    inner loop has made [J] passes, and the state of the array then. *)
Definition progress_acc (min : K) (l : list (Body V K)) (i J k : nat) (a : V)
    : V :=
  if decide (k < i) then acc_after min l k a
  else if decide (k = i)
       then foldl (add_step min l i) (foldl (sub_step min l i) a (seq 0 i))
                  (seq (S i) J)
  else if decide (k < S i + J) then foldl (sub_step min l k) a (seq 0 (S i))
  else foldl (sub_step min l k) a (seq 0 i).

Definition progress (min : K) (l : list (Body V K)) (i J : nat)
    (l' : list (Body V K)) : Prop :=
  frame <$> l' = frame <$> l /\
  forall k bk, l !! k = Some bk ->
    acc <$> (l' !! k) = Some (progress_acc min l i J k (acc bk)).

End PassSpec.

(** ** Sums over the bodies, in exact arithmetic *)

(** A linear map from vectors to numbers, such as a coordinate. *)
Definition linear {V} `{!Vector R V} (phi : V -> R) : Prop :=
  phi vzero = 0%R /\
  (forall a b, phi (add a b) = (phi a + phi b)%R) /\
  (forall a b, phi (sub a b) = (phi a - phi b)%R) /\
  (forall a s, phi (multiplyScalar a s) = (phi a * s)%R).

(** The sum over the bodies of [phi (f body) * mass]: along [phi], the
    total momentum for [f = vel], the total force for [f = acc]. *)
Definition total_along {V} `{!Vector R V} (phi : V -> R)
    (f : Body V R -> V) (l : list (Body V R)) : R :=
  Rsum ((fun b => phi (f b) * mass b)%R <$> l).

(** Along [phi], the pull of body [j] on body [k]: [tmp * mass_j] for the
    vector [tmp] from [k] to [j]; nothing for [j = k]. *)
Definition pull_term {V} `{!Vector R V} (phi : V -> R) (min : R)
    (l : list (Body V R)) (k j : nat) : R :=
  match l !! k, l !! j with
  | Some bk, Some bj =>
      if decide (j = k) then 0%R
      else (phi (force_dir min (pos bk) (pos bj)) * mass bj)%R
  | _, _ => 0%R
  end.

(** The pulls of all the other bodies on body [k]. *)
Definition net_pull {V} `{!Vector R V} (phi : V -> R) (min : R)
    (l : list (Body V R)) (k : nat) : R :=
  Rsum (pull_term phi min l k <$> seq 0 (length l)).

(** ** Draws of the sampling, in exact arithmetic *)

(** A cosine and a sine of one angle. *)
Definition unit_circle (c s : R) : Prop := (c * c + s * s = 1)%R.

(** What [randDisc] can draw: an angle and a radius in [[0, 1)]. *)
Definition drawn_in_disc (d : Bounded.Draw R) : Prop :=
  unit_circle (Bounded.cos_theta d) (Bounded.sin_theta d) /\
  (0 <= Bounded.radius d < 1)%R.

(** What [randSphere] can draw: two angles and a radius in [[0, 1)]. *)
Definition drawn_in_ball (d : Unbounded.Draw R) : Prop :=
  unit_circle (Unbounded.cos_theta d) (Unbounded.sin_theta d) /\
  unit_circle (Unbounded.cos_phi d) (Unbounded.sin_phi d) /\
  (0 <= Unbounded.radius d < 1)%R.

(** ** More inputs *)

(** Two bodies of the unbounded file, of masses 1 and 3, moving. *)
Definition two_bodies_3d : list (Body (Vector3.t R) R) :=
  [ new_Body (Vector3.mk (-1) 0 0) (Vector3.mk 0 (1 / 10) 0) 1;
    new_Body (Vector3.mk 1 0 0) (Vector3.mk 0 0 (1 / 5)) 3 ]%R.

(** A sampling outcome of the unbounded file: every position is drawn on
    the x axis at radius 1/2, every velocity on the y axis at radius 1/4. *)
Definition axis_draws (i : nat) : Unbounded.Draw R * Unbounded.Draw R :=
  (Unbounded.mkDraw 1 0 0 1 (1 / 2), Unbounded.mkDraw 0 1 1 0 (1 / 4))%R.


(** ** Properties of the engine, for every arithmetic *)

Section EngineFacts.
Context `{Number K} `{!Vector K V}.

Lemma foldl_preserves {A B} (P : A -> Prop) (f : A -> B -> A) (l : list B) :
  (forall a x, P a -> P (f a x)) -> forall a, P a -> P (foldl f a l).
Proof.
  intros Hf. induction l as [|x l IH]; intros a Ha; simpl; auto.
Qed.

Lemma frame_alter_acc (g : Body V K -> Body V K) i (l : list (Body V K)) :
  (forall b, frame (g b) = frame b) ->
  frame <$> alter g i l = frame <$> l.
Proof.
  intros Hg.
  rewrite (list_fmap_alter frame g (fun t => t)); [apply list_alter_id; auto|].
  apply Forall_forall. intros b _. apply Hg.
Qed.

Lemma frame_pair_step min i p1 m1 (l : list (Body V K)) j :
  frame <$> pair_step min i p1 m1 l j = frame <$> l.
Proof.
  unfold pair_step. destruct (l !! j) as [bj|]; [|reflexivity].
  cbv zeta. rewrite !frame_alter_acc; auto.
Qed.

Lemma frame_inner_loop min (l : list (Body V K)) i :
  frame <$> inner_loop min l i = frame <$> l.
Proof.
  unfold inner_loop. destruct (l !! i) as [bi|]; [|reflexivity].
  cbv zeta.
  apply (foldl_preserves (fun l' => frame <$> l' = frame <$> l));
    [|reflexivity].
  intros l' j Hl'. rewrite frame_pair_step. exact Hl'.
Qed.

Lemma frame_accumulate min (l : list (Body V K)) :
  frame <$> accumulate min l = frame <$> l.
Proof.
  unfold accumulate.
  apply (foldl_preserves (fun l' => frame <$> l' = frame <$> l));
    [|reflexivity].
  intros l' i Hl'. rewrite frame_inner_loop. exact Hl'.
Qed.

Lemma length_accumulate min (l : list (Body V K)) :
  length (accumulate min l) = length l.
Proof.
  rewrite <- (length_fmap frame (accumulate min l)), frame_accumulate.
  apply length_fmap.
Qed.

(** The inner loop reads [p1] and [m1] once, before its first pass; as no
    pass writes a position or a mass, each pass finds them equal to the
    position and the mass that body [i] has at that moment. *)
Lemma inner_loop_passes min (l : list (Body V K)) i :
  inner_loop min l i =
  foldl (fun bodies j =>
           match bodies !! i with
           | Some bi => pair_step min i (pos bi) (mass bi) bodies j
           | None => bodies
           end)
        l (seq (S i) (length l - S i)).
Proof.
  unfold inner_loop. destruct (l !! i) as [bi|] eqn:Hi; cbv zeta.
  - assert (Hinv : (frame <$> l) !! i = Some (frame bi))
      by (rewrite list_lookup_fmap, Hi; reflexivity).
    clear Hi. generalize (seq (S i) (length l - S i)) as js.
    intros js. revert l Hinv.
    induction js as [|j js IH]; intros l Hinv; [reflexivity|].
    cbn [foldl].
    rewrite list_lookup_fmap in Hinv.
    destruct (l !! i) as [b|] eqn:Hb; [|discriminate].
    injection Hinv as Hp Hv Hm. rewrite Hp, Hm.
    apply IH. rewrite frame_pair_step, list_lookup_fmap, Hb.
    unfold frame. cbn. rewrite Hp, Hv, Hm. reflexivity.
  - apply lookup_ge_None in Hi.
    replace (length l - S i) with 0 by lia. reflexivity.
Qed.

(** With a single body the two loops meet no pair. *)
Lemma accumulate_single min (b : Body V K) : accumulate min [b] = [b].
Proof. reflexivity. Qed.

Lemma acc_update dt (b : Body V K) : acc (update dt b) = vzero.
Proof. reflexivity. Qed.

Lemma Forall_acc_integrate dt (l : list (Body V K)) :
  Forall (fun b => acc b = vzero) (integrate dt l).
Proof.
  unfold integrate. apply Forall_fmap, Forall_forall. intros b _. reflexivity.
Qed.

(** What one pass of the inner loop's body writes, for two distinct indices
    inside the array. *)
Lemma pair_step_lookup min i j (bodies : list (Body V K)) bi bj :
  i <> j -> bodies !! i = Some bi -> bodies !! j = Some bj ->
  let tmp := force_dir min (pos bi) (pos bj) in
  let bodies' := pair_step min i (pos bi) (mass bi) bodies j in
  bodies' !! i = Some (acc_add (multiplyScalar tmp (mass bj)) bi) /\
  bodies' !! j = Some (acc_sub (multiplyScalar tmp (mass bi)) bj).
Proof.
  intros Hij Hi Hj tmp bodies'. subst bodies' tmp. unfold pair_step.
  rewrite Hj. cbv zeta. split.
  - rewrite list_lookup_alter_ne by auto.
    rewrite list_lookup_alter_eq, Hi. reflexivity.
  - rewrite list_lookup_alter_eq, list_lookup_alter_ne, Hj by auto.
    reflexivity.
Qed.

(** C3. For every body and every time step, [update] leaves the position at
    the old position plus the old velocity times [dt] (the velocity read is
    the one from before the call, although the velocity is assigned in the
    same call), the velocity at the old velocity plus the accumulated
    acceleration times [dt], and the acceleration at the zero vector; the
    mass is untouched.  This holds in both files and for every arithmetic. *)
Theorem update_position_then_velocity (dt : K) (b : Body V K) :
  pos (update dt b) = add (pos b) (multiplyScalar (vel b) dt) /\
  vel (update dt b) = add (vel b) (multiplyScalar (acc b) dt) /\
  acc (update dt b) = vzero /\
  mass (update dt b) = mass b.
Proof.
  unfold update. cbv zeta. destruct b as [p v a m]. simpl. auto.
Qed.

(** C10. The accumulation pass writes acceleration fields only: the array
    keeps its length, and the positions, the velocities and the masses of
    its bodies are, index by index, the ones from before the pass. *)
Theorem accumulate_frame (min : K) (bodies : list (Body V K)) :
  length (accumulate min bodies) = length bodies /\
  pos <$> accumulate min bodies = pos <$> bodies /\
  vel <$> accumulate min bodies = vel <$> bodies /\
  mass <$> accumulate min bodies = mass <$> bodies.
Proof.
  pose proof (frame_accumulate min bodies) as Hf.
  split; [apply length_accumulate|].
  repeat split.
  - change pos with ((fun t : V * V * K => t.1.1) ∘ frame).
    rewrite !list_fmap_compose, Hf. reflexivity.
  - change vel with ((fun t : V * V * K => t.1.2) ∘ frame).
    rewrite !list_fmap_compose, Hf. reflexivity.
  - change mass with ((fun t : V * V * K => t.2) ∘ frame).
    rewrite !list_fmap_compose, Hf. reflexivity.
Qed.
End EngineFacts.

(** ** The invariants of a run, for every arithmetic *)

Section RunFacts.
Context `{Number K}.

Lemma acc_reflect (b : Body (Vector2.t K) K) :
  acc (Bounded.reflect b) = acc b.
Proof.
  unfold Bounded.reflect. cbv zeta.
  destruct (Bounded.outside (Vector2.x (pos b)));
    match goal with |- context [if ?c then _ else _] => destruct c end;
    reflexivity.
Qed.

Lemma Forall_acc_bounded_animate dt min (l : list (Body (Vector2.t K) K)) :
  Forall (fun b => acc b = vzero) (Bounded.animate dt min l).
Proof.
  unfold Bounded.animate. apply Forall_fmap, Forall_forall. intros b _.
  simpl. rewrite acc_reflect. reflexivity.
Qed.

Lemma Forall_acc_create2 mass n draws :
  Forall (fun b : Body (Vector2.t K) K => acc b = vzero)
         (Bounded.create mass n draws).
Proof.
  unfold Bounded.create. apply Forall_fmap, Forall_forall. intros i _.
  reflexivity.
Qed.

Lemma Forall_acc_init mass n draws :
  Forall (fun b : Body (Vector2.t K) K => acc b = vzero)
         (Bounded.init mass n draws).
Proof.
  unfold Bounded.init, Bounded.rescaling, Bounded.centering.
  pose proof (Forall_acc_create2 mass n draws) as Hc.
  set (bs := Bounded.create mass n draws) in *.
  destruct (Bounded.max_radius _).
  - do 2 apply Forall_fmap. eapply Forall_impl; [exact Hc|].
    intros b Hb. exact Hb.
  - apply Forall_fmap. eapply Forall_impl; [exact Hc|].
    intros b Hb. exact Hb.
Qed.

Lemma Forall_acc_bounded_run dt min k (l : list (Body (Vector2.t K) K)) :
  Forall (fun b => acc b = vzero) l ->
  Forall (fun b => acc b = vzero) (Bounded.run dt min k l).
Proof.
  intros Hl. destruct k as [|k]; [exact Hl|].
  unfold Bounded.run. rewrite Nat.iter_succ. apply Forall_acc_bounded_animate.
Qed.

Lemma Forall_acc_unbounded_run dt min k (l : list (Body (Vector3.t K) K)) :
  Forall (fun b => acc b = vzero) l ->
  Forall (fun b => acc b = vzero) (Unbounded.run dt min k l).
Proof.
  intros Hl. destruct k as [|k]; [exact Hl|].
  unfold Unbounded.run. rewrite Nat.iter_succ. apply Forall_acc_integrate.
Qed.

(** C7. Every accumulation pass starts with all accelerations at the zero
    vector.  The constructor sets the acceleration to zero; the one-time
    centring and rescaling of the bounded file do not write it; and whatever
    the array holds, every body leaves [animate] with its acceleration reset.
    So the state before each frame of a run, in either file, has all its
    accelerations at zero. *)
Theorem acceleration_zero_before_every_pass :
  (forall (p v : Vector2.t K) (m : K), acc (new_Body p v m) = vzero) /\
  (forall (p v : Vector3.t K) (m : K), acc (new_Body p v m) = vzero) /\
  (forall dt min bodies,
     Forall (fun b => acc b = vzero) (Bounded.animate dt min bodies)) /\
  (forall dt min bodies,
     Forall (fun b => acc b = vzero) (Unbounded.animate dt min bodies)) /\
  (forall mass n draws dt min k,
     Forall (fun b => acc b = vzero)
            (Bounded.run dt min k (Bounded.init mass n draws))) /\
  (forall mass n draws dt min k,
     Forall (fun b => acc b = vzero)
            (Unbounded.run dt min k (Unbounded.create mass n draws))).
Proof.
  split; [reflexivity|]. split; [reflexivity|].
  split; [intros; apply Forall_acc_bounded_animate|].
  split; [intros; apply Forall_acc_integrate|].
  split.
  - intros. apply Forall_acc_bounded_run, Forall_acc_init.
  - intros. apply Forall_acc_unbounded_run.
    unfold Unbounded.create. apply Forall_fmap, Forall_forall. intros i _.
    reflexivity.
Qed.

Lemma same_state_eq {V} (l1 l2 : list (Body V K)) :
  Forall2 same_state l1 l2 -> l1 = l2.
Proof.
  induction 1 as [|b1 b2 l1 l2 Hb _ IH]; [reflexivity|].
  destruct b1, b2, Hb as (? & ? & ? & ?); simpl in *. congruence.
Qed.

(** The bodies after the frames of [browsers] are the bodies after as many
    calls of the physics: a frame writes the meshes and the picture from the
    bodies, and reads neither them nor the browser to write the bodies. *)
Lemma bodies_frames2 dt min (browsers : list (Page.Browser K)) page :
  Page.bodies (Page.frames2 dt min browsers page) =
  Bounded.run dt min (length browsers) (Page.bodies page).
Proof.
  unfold Page.frames2, Bounded.run. revert page.
  induction browsers as [|b bs IH]; intros page; [reflexivity|].
  cbn [foldl length]. rewrite IH, Nat.iter_succ_r. reflexivity.
Qed.

Lemma bodies_frames3 dt min (browsers : list (Page.Browser K)) page :
  Page.bodies (Page.frames3 dt min browsers page) =
  Unbounded.run dt min (length browsers) (Page.bodies page).
Proof.
  unfold Page.frames3, Unbounded.run. revert page.
  induction browsers as [|b bs IH]; intros page; [reflexivity|].
  cbn [foldl length]. rewrite IH, Nat.iter_succ_r. reflexivity.
Qed.

Lemma same_state_refl {V} (l : list (Body V K)) : Forall2 same_state l l.
Proof.
  apply Forall2_same_length_lookup_2; [reflexivity|].
  intros i b b' Hb Hb'. rewrite Hb in Hb'. injection Hb' as <-.
  repeat split.
Qed.


(** C5. What the boundary tests do to a body that [update] has just moved:
    the position stays where the update put it, inside the box or not; on
    each axis, by that axis's coordinate alone, the velocity component is
    multiplied by [-1] when the coordinate is [<= -3] or [>= 3] and is left
    as it is otherwise.  A body inside the box on both axes keeps its
    velocity.  Acceleration and mass are not written. *)
Theorem reflect_negates_velocity_per_axis (dt : K) (b : Body (Vector2.t K) K) :
  let u := update dt b in
  let r := Bounded.reflect u in
  pos r = pos u /\ acc r = acc u /\ mass r = mass u /\
  Vector2.x (vel r) =
    (if Bounded.outside (Vector2.x (pos u))
     then (Vector2.x (vel u) * #(-1))%js else Vector2.x (vel u)) /\
  Vector2.y (vel r) =
    (if Bounded.outside (Vector2.y (pos u))
     then (Vector2.y (vel u) * #(-1))%js else Vector2.y (vel u)) /\
  (Bounded.outside (Vector2.x (pos u)) = false ->
   Bounded.outside (Vector2.y (pos u)) = false -> vel r = vel u).
Proof.
  intros u r. subst r. generalize u. clear. intros u.
  unfold Bounded.reflect. cbv zeta.
  destruct u as [[px py] [vx vy] a m]. simpl.
  destruct (Bounded.outside px); simpl; destruct (Bounded.outside py); simpl;
    (do 5 (split; [reflexivity|])); intros Hx Hy;
    first [discriminate Hx | discriminate Hy | reflexivity].
Qed.
End RunFacts.


Lemma reflect_negates_velocity_per_axis_witness :
  (let u := update Bounded.dt body_beyond_x in
   Bounded.outside (Vector2.x (pos u)) = true /\
   Bounded.outside (Vector2.y (pos u)) = false /\
   pos (Bounded.reflect u) = pos u /\
   vel u = Vector2.mk 1 1 /\
   vel (Bounded.reflect u) = Vector2.mk (-1) 1)%float.
Proof.
  pose proof (reflect_negates_velocity_per_axis
                (@Bounded.dt float _) body_beyond_x) as Hr.
  cbv zeta in Hr. destruct Hr as (Hp & _ & _ & Hx & Hy & _).
  cbv zeta. split; [vm_compute; reflexivity|].
  split; [vm_compute; reflexivity|]. split; [exact Hp|].
  split; [vm_compute; reflexivity|].
  vm_compute. reflexivity.
Defined.

(** ** Binary64 arithmetic, from its specification *)

(** The facts about [float] that the properties of the engine need.  The
    library specifies the operations on floats through [Prim2SF]: the
    product, the sum, the difference, the square root and the comparisons
    of floats are those of [spec_float], where a number is a sign, a
    mantissa and an exponent, and where rounding shifts the mantissa to the
    right and adds at most one to it. *)

Section Rounding.
Local Open Scope Z_scope.

(** *** The rounding of a mantissa *)

Lemma iter_pos_nat {A} (f : A -> A) (p : positive) (x : A) :
  SpecFloat.iter_pos f p x = Nat.iter (Pos.to_nat p) f x.
Proof.
  revert x. induction p as [p IH|p IH|]; intros x; cbn [SpecFloat.iter_pos].
  - rewrite !IH, Pos2Nat.inj_xI.
    replace (S (2 * Pos.to_nat p))%nat
      with (Pos.to_nat p + (Pos.to_nat p + 1))%nat by lia.
    rewrite !Nat.iter_add. reflexivity.
  - rewrite !IH, Pos2Nat.inj_xO.
    replace (2 * Pos.to_nat p)%nat
      with (Pos.to_nat p + Pos.to_nat p)%nat by lia.
    rewrite Nat.iter_add. reflexivity.
  - reflexivity.
Qed.

(** One place to the right halves the mantissa. *)
Lemma shr_1_m (mrs : shr_record) :
  0 <= shr_m mrs -> shr_m (shr_1 mrs) = shr_m mrs / 2.
Proof.
  destruct mrs as [m r s]. cbn [shr_m]. intros Hm. unfold shr_1.
  destruct m as [|[p|p|]|p]; cbn [shr_m]; [reflexivity| | |reflexivity|lia].
  - apply Z.div_unique with 1; lia.
  - apply Z.div_unique with 0; lia.
Qed.

Lemma shr_iter_m (n : nat) (mrs : shr_record) :
  0 <= shr_m mrs ->
  shr_m (Nat.iter n shr_1 mrs) = shr_m mrs / 2 ^ Z.of_nat n.
Proof.
  intros Hm. induction n as [|n IH].
  - simpl. rewrite Z.div_1_r. reflexivity.
  - rewrite Nat.iter_succ, shr_1_m.
    + rewrite IH, Nat2Z.inj_succ, Z.pow_succ_r by lia.
      rewrite Z.div_div by lia. f_equal. lia.
    + rewrite IH. apply Z.div_pos; lia.
Qed.

(** The mantissa after [shr]: shifted right by [n] places, when [n > 0]. *)
Lemma shr_m_spec (mrs : shr_record) (e n : Z) :
  0 <= shr_m mrs ->
  shr_m (shr mrs e n).1 = shr_m mrs / 2 ^ Z.max 0 n /\
  (shr mrs e n).2 = e + Z.max 0 n.
Proof.
  intros Hm. destruct n as [|p|p]; cbn [shr fst snd].
  - rewrite Z.div_1_r. split; [reflexivity|lia].
  - rewrite iter_pos_nat, shr_iter_m by exact Hm.
    rewrite positive_nat_Z. split; [f_equal; f_equal; lia|lia].
  - rewrite Z.div_1_r. split; [reflexivity|lia].
Qed.

Lemma shr_record_of_loc_m m l : shr_m (shr_record_of_loc m l) = m.
Proof. destruct l as [|[| |]]; reflexivity. Qed.

Lemma round_nearest_even_bounds m l :
  m <= round_nearest_even m l <= m + 1.
Proof.
  unfold round_nearest_even. destruct l as [|[| |]]; try lia.
  destruct (Z.even m); lia.
Qed.

(** The number of binary digits of a mantissa. *)
Lemma digits2_size (p : positive) : digits2_pos p = Pos.size p.
Proof. induction p; simpl; congruence. Qed.

Lemma size_bounds (p : positive) :
  2 ^ (Z.pos (Pos.size p) - 1) <= Z.pos p < 2 ^ Z.pos (Pos.size p).
Proof.
  induction p as [p IH|p IH|]; cbn [Pos.size]; [| |simpl; lia].
  - rewrite Pos2Z.inj_succ.
    replace (Z.succ (Z.pos (Pos.size p)) - 1) with
      (Z.succ (Z.pos (Pos.size p) - 1)) by lia.
    rewrite !Z.pow_succ_r by lia. lia.
  - rewrite Pos2Z.inj_succ.
    replace (Z.succ (Z.pos (Pos.size p)) - 1) with
      (Z.succ (Z.pos (Pos.size p) - 1)) by lia.
    rewrite !Z.pow_succ_r by lia. lia.
Qed.

Lemma size_unique (p : positive) (d : Z) :
  2 ^ (d - 1) <= Z.pos p < 2 ^ d -> Z.pos (Pos.size p) = d.
Proof.
  intros [Hl Hu]. pose proof (size_bounds p) as [Hl' Hu'].
  assert (0 < d).
  { destruct (Z_lt_le_dec 0 d) as [|Hd]; [assumption|].
    assert (2 ^ d <= 1); [|lia].
    destruct (Z.eq_dec d 0) as [->|]; [simpl; lia|].
    rewrite Z.pow_neg_r by lia. lia. }
  destruct (Z_lt_le_dec (Z.pos (Pos.size p)) d) as [Hlt|Hge].
  - assert (2 ^ Z.pos (Pos.size p) <= 2 ^ (d - 1))
      by (apply Z.pow_le_mono_r; lia). lia.
  - destruct (Z_lt_le_dec d (Z.pos (Pos.size p))) as [Hlt|Hge']; [|lia].
    assert (2 ^ d <= 2 ^ (Z.pos (Pos.size p) - 1))
      by (apply Z.pow_le_mono_r; lia). lia.
Qed.

Lemma shr_fexp_spec (m e : Z) (l : location) :
  0 <= m ->
  shr_m (shr_fexp prec emax m e l).1 = m / 2 ^ shift_of m e /\
  (shr_fexp prec emax m e l).2 = e + shift_of m e.
Proof.
  intros Hm. unfold shr_fexp, shift_of.
  destruct (shr_m_spec (shr_record_of_loc m l) e
              (fexp prec emax (Zdigits2 m + e) - e)) as [H1 H2].
  - rewrite shr_record_of_loc_m. exact Hm.
  - rewrite shr_record_of_loc_m in H1. split; assumption.
Qed.

(** Rounding a mantissa [m] that is not negative: [m] is shifted, at most
    one is added to it (to [m2]), and [m2] is shifted again if the addition
    gave it one more digit. *)
Lemma binary_round_aux_spec (s : bool) (m e : Z) (l : location) :
  0 <= m ->
  exists m2,
    let e1 := e + shift_of m e in
    m / 2 ^ shift_of m e <= m2 <= m / 2 ^ shift_of m e + 1 /\
    binary_round_aux prec emax s m e l =
    sf_of s (m2 / 2 ^ shift_of m2 e1) (e1 + shift_of m2 e1).
Proof.
  intros Hm. unfold binary_round_aux.
  destruct (shr_fexp_spec m e l Hm) as [H1 H2].
  destruct (shr_fexp prec emax m e l) as [mrs' e'] eqn:E1.
  cbn [fst snd] in H1, H2.
  set (m2 := round_nearest_even (shr_m mrs') (loc_of_shr_record mrs')).
  pose proof (round_nearest_even_bounds (shr_m mrs') (loc_of_shr_record mrs'))
    as Hr. fold m2 in Hr. rewrite H1 in Hr.
  assert (Hm1 : 0 <= m / 2 ^ shift_of m e).
  { apply Z.div_pos; [exact Hm|].
    apply Z.pow_pos_nonneg; unfold shift_of; lia. }
  assert (Hm2 : 0 <= m2) by lia.
  destruct (shr_fexp_spec m2 e' loc_Exact Hm2) as [H3 H4].
  destruct (shr_fexp prec emax m2 e' loc_Exact) as [mrs'' e''] eqn:E2.
  cbn [fst snd] in H3, H4.
  exists m2. cbv zeta. split; [exact Hr|].
  rewrite H3, H4, H2. reflexivity.
Qed.

Lemma sf_of_signed s m e : 0 <= m -> sf_signed s (sf_of s m e).
Proof.
  intros Hm. destruct m as [|p|p]; cbn; [reflexivity| |lia].
  destruct (e <=? emax - prec); reflexivity.
Qed.

Lemma binary_round_aux_signed s m e l :
  0 <= m -> sf_signed s (binary_round_aux prec emax s m e l).
Proof.
  intros Hm. destruct (binary_round_aux_spec s m e l Hm) as (m2 & H2 & ->).
  apply sf_of_signed. apply Z.div_pos.
  - assert (0 <= m / 2 ^ shift_of m e); [|lia].
    apply Z.div_pos; [exact Hm|]. apply Z.pow_pos_nonneg; unfold shift_of; lia.
  - apply Z.pow_pos_nonneg; unfold shift_of; lia.
Qed.

(** *** Comparisons and bounds *)

(** Two positive finite numbers compare by their exponents, then by their
    mantissas. *)
Lemma SFleb_finite_pos (mc : positive) (ec : Z) (m : positive) (e : Z) :
  SFleb (S754_finite false mc ec) (S754_finite false m e) = true <->
  ec < e \/ (ec = e /\ Z.pos mc <= Z.pos m).
Proof.
  unfold SFleb, SFcompare.
  destruct (Z.compare_spec ec e) as [He|He|He].
  - change (Pos.compare_cont Eq mc m) with (Pos.compare mc m).
    destruct (Pos.compare_spec mc m) as [Hm|Hm|Hm]; split; try discriminate;
      try (intros _; right; split; [exact He|]; lia);
      intros [H|[_ H]]; lia.
  - split; [intros _; left; exact He|reflexivity].
  - split; [discriminate|lia].
Qed.

(** Above the smallest exponent a mantissa has all its 53 digits. *)
Lemma canonical_normal (m : positive) (e : Z) :
  canonical_mantissa prec emax m e = true -> -1074 < e ->
  2 ^ 52 <= Z.pos m < 2 ^ 53.
Proof.
  unfold canonical_mantissa, fexp, SpecFloat.emin. intros Hc He.
  apply Z.eqb_eq in Hc. rewrite digits2_size in Hc.
  change (3 - emax - prec) with (-1074) in Hc. change prec with 53 in Hc.
  assert (Hs : Z.pos (Pos.size m) = 53) by lia.
  pose proof (size_bounds m) as Hb. rewrite Hs in Hb. exact Hb.
Qed.

Lemma shift_of_pos (q : positive) (e d : Z) :
  2 ^ (d - 1) <= Z.pos q < 2 ^ d -> -1074 <= d + e - 53 -> 53 <= d ->
  shift_of (Z.pos q) e = d - 53.
Proof.
  intros Hq He Hd. unfold shift_of, fexp, SpecFloat.emin. cbn [Zdigits2].
  rewrite digits2_size, (size_unique q d Hq).
  change (3 - emax - prec) with (-1074). change prec with 53. lia.
Qed.

(** The product of a number that is at least [c], a positive normal number,
    and of a number that is at least 1, is at least [c] after rounding; it
    may be [+infinity]. *)
Lemma SFmul_lower_bound (mc : positive) (ec : Z)
    (ma : positive) (ea : Z) (mg : positive) (eg : Z) :
  -1074 < ec ->
  canonical_mantissa prec emax ma ea = true ->
  canonical_mantissa prec emax mg eg = true ->
  SFleb (S754_finite false mc ec) (S754_finite false ma ea) = true ->
  SFleb (S754_finite false 4503599627370496 (-52))
        (S754_finite false mg eg) = true ->
  SFleb (S754_finite false mc ec)
        (SFmul prec emax (S754_finite false ma ea) (S754_finite false mg eg))
  = true.
Proof.
  intros Hec Hca Hcg Hla Hlg.
  apply SFleb_finite_pos in Hla, Hlg.
  assert (Ha : 2 ^ 52 <= Z.pos ma < 2 ^ 53)
    by (apply canonical_normal with ea; [assumption|lia]).
  assert (Hg : 2 ^ 52 <= Z.pos mg < 2 ^ 53)
    by (apply canonical_normal with eg; [assumption|lia]).
  cbn [SFmul xorb].
  destruct (binary_round_aux_spec false (Z.pos (ma * mg)) (ea + eg) loc_Exact)
    as (m2 & Hm2 & ->); [lia|].
  cbv zeta in Hm2.
  set (P := Z.pos (ma * mg)) in *.
  assert (HP : P = Z.pos ma * Z.pos mg) by reflexivity.
  change (2 ^ 52) with 4503599627370496 in *.
  change (2 ^ 53) with 9007199254740992 in *.
  assert (HPb : 2 ^ 104 <= P < 2 ^ 106).
  { change (2 ^ 104) with (4503599627370496 * 4503599627370496).
    change (2 ^ 106) with (9007199254740992 * 9007199254740992). nia. }
  assert (Hd : exists d, (d = 105 \/ d = 106) /\ 2 ^ (d - 1) <= P < 2 ^ d).
  { destruct (Z_lt_le_dec P (2 ^ 105)).
    - exists 105. split; [auto|]. change (105 - 1) with 104. lia.
    - exists 106. split; [auto|]. change (106 - 1) with 105. lia. }
  destruct Hd as (d & Hd & HPd).
  assert (Hn1 : shift_of P (ea + eg) = d - 53).
  { apply shift_of_pos; [exact HPd|lia|lia]. }
  rewrite Hn1 in *.
  assert (Hm1 : 4503599627370496 <= P / 2 ^ (d - 53) < 9007199254740992 /\
                (d = 105 -> Z.pos ma <= P / 2 ^ (d - 53))).
  { destruct Hd as [-> | ->].
    - change (2 ^ (105 - 53)) with 4503599627370496.
      change (2 ^ (105 - 1)) with (4503599627370496 * 4503599627370496) in HPd.
      change (2 ^ 105) with (9007199254740992 * 4503599627370496) in HPd.
      split; [split|intros _].
      + apply Z.div_le_lower_bound; lia.
      + apply Z.div_lt_upper_bound; lia.
      + apply Z.div_le_lower_bound; [lia|]. nia.
    - change (2 ^ (106 - 53)) with 9007199254740992.
      change (2 ^ (106 - 1)) with (4503599627370496 * 9007199254740992) in HPd.
      change (2 ^ 106) with (9007199254740992 * 9007199254740992) in HPd.
      split; [split|intros H; discriminate H].
      + apply Z.div_le_lower_bound; lia.
      + apply Z.div_lt_upper_bound; lia. }
  destruct Hm1 as [Hm1 Hma].
  set (m1 := P / 2 ^ (d - 53)) in *.
  set (e1 := ea + eg + (d - 53)) in *.
  assert (He1 : ea <= e1 /\ (e1 = ea -> d = 105)) by (unfold e1; lia).
  destruct m2 as [|q|q]; [lia| |lia].
  destruct (Z_lt_le_dec (Z.pos q) 9007199254740992) as [Hq|Hq].
  - assert (Hn2 : shift_of (Z.pos q) e1 = 0).
    { rewrite (shift_of_pos q e1 53); [reflexivity| |lia|lia].
      change (2 ^ (53 - 1)) with 4503599627370496.
      change (2 ^ 53) with 9007199254740992. lia. }
    rewrite Hn2. change (2 ^ 0) with 1. rewrite Z.div_1_r, Z.add_0_r.
    cbn [sf_of]. destruct (e1 <=? emax - prec); [|reflexivity].
    apply SFleb_finite_pos.
    destruct (Z_lt_le_dec ec e1); [left; assumption|right].
    split; [lia|]. lia.
  - assert (Hq' : Z.pos q = 9007199254740992) by lia.
    assert (Hn2 : shift_of (Z.pos q) e1 = 1).
    { rewrite (shift_of_pos q e1 54); [reflexivity| |lia|lia].
      change (2 ^ (54 - 1)) with 9007199254740992.
      change (2 ^ 54) with 18014398509481984. lia. }
    rewrite Hn2, Hq'. change (9007199254740992 / 2 ^ 1) with 4503599627370496.
    cbn [sf_of]. destruct (e1 + 1 <=? emax - prec); [|reflexivity].
    apply SFleb_finite_pos. left. lia.
Qed.

Lemma SFltb_finite_pos (m : positive) (e : Z) (mc : positive) (ec : Z) :
  SFltb (S754_finite false m e) (S754_finite false mc ec) = true <->
  e < ec \/ (e = ec /\ Z.pos m < Z.pos mc).
Proof.
  unfold SFltb, SFcompare.
  destruct (Z.compare_spec e ec) as [He|He|He].
  - change (Pos.compare_cont Eq m mc) with (Pos.compare m mc).
    destruct (Pos.compare_spec m mc) as [Hm|Hm|Hm]; split; try discriminate;
      try (intros _; right; split; [exact He|]; lia);
      intros [H|[_ H]]; lia.
  - split; [intros _; left; exact He|reflexivity].
  - split; [discriminate|lia].
Qed.

(** Among the numbers that are not negative, one that is not below [c] is at
    least [c]. *)
Lemma SFleb_of_not_ltb (mc : positive) (ec : Z) (x : spec_float) :
  sf_signed false x ->
  SFltb x (S754_finite false mc ec) = false ->
  SFleb (S754_finite false mc ec) x = true.
Proof.
  destruct x as [s|s| |s m e]; cbn [sf_signed]; try contradiction;
    intros ->; [discriminate|reflexivity|].
  intros Hlt. apply SFleb_finite_pos.
  destruct (Z_lt_le_dec ec e) as [|He]; [left; assumption|right].
  assert (Hn : ~ (e < ec \/ (e = ec /\ Z.pos m < Z.pos mc))).
  { intros H. apply SFltb_finite_pos in H. congruence. }
  lia.
Qed.

Lemma SFleb_of_ltb (mc : positive) (ec : Z) (x : spec_float) :
  SFltb (S754_finite false mc ec) x = true ->
  SFleb (S754_finite false mc ec) x = true.
Proof.
  unfold SFltb, SFleb. destruct (SFcompare _ x) as [[| |]|]; congruence.
Qed.

Lemma SFleb_refl_finite (mc : positive) (ec : Z) :
  SFleb (S754_finite false mc ec) (S754_finite false mc ec) = true.
Proof. apply SFleb_finite_pos. right. split; lia. Qed.

(** What is at least a positive number is positive: a positive finite number
    or [+infinity]. *)
Lemma SFleb_positive (mc : positive) (ec : Z) (x : spec_float) :
  SFleb (S754_finite false mc ec) x = true ->
  SFltb (S754_zero false) x = true /\ SFeqb x (S754_zero false) = false /\
  (x = S754_infinity false \/ exists m e, x = S754_finite false m e).
Proof.
  destruct x as [s|[|]| |[|] m e]; try discriminate; intros _;
    (split; [reflexivity|split; [reflexivity|]]); eauto.
Qed.

Lemma SFeqb_refl (x : spec_float) : x <> S754_nan -> SFeqb x x = true.
Proof.
  unfold SFeqb. destruct x as [s|[|]| |[|] m e]; try reflexivity;
    try congruence; intros _; cbn [SFcompare];
    rewrite Z.compare_refl, Pos.compare_cont_refl; reflexivity.
Qed.

Lemma sf_signed_not_nan s x : sf_signed s x -> x <> S754_nan.
Proof. destruct x; simpl; congruence. Qed.

(** *** The operations on numbers that are not negative *)

Lemma SFmul_square (x : spec_float) :
  x <> S754_nan -> sf_signed false (SFmul prec emax x x).
Proof.
  destruct x as [s|s| |s m e]; intros Hx; cbn [SFmul sf_signed];
    try apply xorb_nilpotent; [congruence|].
  rewrite xorb_nilpotent. apply binary_round_aux_signed. lia.
Qed.

Lemma binary_round_signed s m e :
  sf_signed s (binary_round prec emax s m e).
Proof.
  unfold binary_round. destruct (shl_align _ _ _) as [mz ez].
  apply binary_round_aux_signed. lia.
Qed.

Lemma SFadd_nonneg (x y : spec_float) :
  sf_signed false x -> sf_signed false y ->
  sf_signed false (SFadd prec emax x y).
Proof.
  destruct x as [sx|sx| |sx mx ex], y as [sy|sy| |sy my ey];
    cbn [sf_signed]; try contradiction; intros -> ->; cbn [SFadd sf_signed];
    try reflexivity.
  cbn [cond_Zopp]. unfold binary_normalize.
  match goal with
  | |- context [Z.add (Z.pos ?a) (Z.pos ?b)] =>
      change (Z.add (Z.pos a) (Z.pos b)) with (Z.pos (a + b))
  end.
  cbn iota. apply binary_round_signed.
Qed.

Lemma SFsub_finite (x y : spec_float) :
  sf_finite x -> sf_finite y -> SFsub prec emax x y <> S754_nan.
Proof.
  destruct x as [sx|sx| |sx mx ex], y as [sy|sy| |sy my ey];
    cbn [sf_finite]; try contradiction; intros _ _; cbn [SFsub];
    try discriminate.
  - destruct sx, sy; discriminate.
  - unfold binary_normalize.
    destruct (_ - _)%Z; [discriminate| |];
      eapply sf_signed_not_nan, binary_round_signed.
Qed.

Lemma SFsqrt_nonneg (x : spec_float) :
  sf_signed false x -> sf_signed false (SFsqrt prec emax x).
Proof.
  destruct x as [s|s| |s m e]; cbn [sf_signed]; try contradiction; intros ->;
    cbn [SFsqrt sf_signed]; try reflexivity.
  unfold SFsqrt_core_binary.
  set (m' := match _ - _ with Z0 => _ | Zpos _ => _ | Zneg _ => _ end).
  pose proof (Z.sqrtrem_sqrt m') as Hs.
  destruct (Z.sqrtrem m') as [q r]. cbn [fst] in Hs.
  apply binary_round_aux_signed. rewrite Hs. apply Z.sqrt_nonneg.
Qed.

(** The product of a number that is at least [c] and of a number that is at
    least 1. *)
Lemma SFmul_at_least (mc : positive) (ec : Z) (a g : spec_float) :
  -1074 < ec ->
  valid_binary a = true -> valid_binary g = true ->
  SFleb (S754_finite false mc ec) a = true ->
  SFleb (S754_finite false 4503599627370496 (-52)) g = true ->
  SFleb (S754_finite false mc ec) (SFmul prec emax a g) = true.
Proof.
  intros Hec Hva Hvg Ha Hg.
  destruct (SFleb_positive _ _ _ Ha) as (_ & _ & [-> | (ma & ea & ->)]);
    destruct (SFleb_positive _ _ _ Hg) as (_ & _ & [-> | (mg & eg & ->)]);
    try reflexivity.
  cbn [SpecFloat.valid_binary] in Hva, Hvg. unfold bounded in Hva, Hvg.
  apply andb_true_iff in Hva, Hvg.
  apply SFmul_lower_bound; tauto.
Qed.
End Rounding.

(** *** Opposites and zeros *)

Section Opp.
Local Open Scope Z_scope.

Lemma SFopp_binary_round_aux s m e l :
  SFopp (binary_round_aux prec emax s m e l) =
  binary_round_aux prec emax (negb s) m e l.
Proof.
  unfold binary_round_aux.
  destruct (shr_fexp prec emax m e l) as [mrs' e'].
  destruct (shr_fexp prec emax _ e' loc_Exact) as [mrs'' e''].
  destruct (shr_m mrs''); [reflexivity| |reflexivity].
  destruct (e'' <=? emax - prec); reflexivity.
Qed.

Lemma SFmul_opp_l (x y : spec_float) :
  SFmul prec emax (SFopp x) y = SFopp (SFmul prec emax x y).
Proof.
  destruct x as [sx|sx| |sx mx ex], y as [sy|sy| |sy my ey];
    cbn [SFmul SFopp]; try reflexivity;
    rewrite ?SFopp_binary_round_aux, ?negb_xorb_l; reflexivity.
Qed.

Lemma SFopp_involutive (x : spec_float) : SFopp (SFopp x) = x.
Proof. destruct x; cbn; rewrite ?negb_involutive; reflexivity. Qed.

Lemma SFsub_add_opp (x y : spec_float) :
  SFsub prec emax x y = SFadd prec emax x (SFopp y).
Proof.
  destruct x as [sx|sx| |sx mx ex], y as [sy|sy| |sy my ey];
    cbn [SFsub SFadd SFopp]; try reflexivity;
    destruct sx, sy; reflexivity.
Qed.

(** Adding [+0]: the number itself, except that [-0 + +0] is [+0]. *)
Lemma SFadd_zero_r (x : spec_float) :
  SFadd prec emax x (S754_zero false) =
  match x with S754_zero true => S754_zero false | _ => x end.
Proof. destruct x as [[|]|[|]| |s m e]; reflexivity. Qed.
End Opp.


(** *** The same facts on [float] *)

Section Binary64.
Local Open Scope float_scope.

Lemma is_finite_spec (x : float) :
  is_finite x = true -> sf_finite (Prim2SF x).
Proof.
  unfold is_finite, is_nan, is_infinity.
  rewrite !FloatAxioms.eqb_spec, abs_spec.
  destruct (Prim2SF x) as [s|s| |s m e]; cbn [sf_finite]; auto.
  - change (Prim2SF infinity) with (S754_infinity false).
    cbn. rewrite orb_true_r. discriminate.
  - cbn. discriminate.
Qed.

Lemma is_nan_false (x : float) :
  Prim2SF x <> S754_nan -> is_nan x = false.
Proof.
  intros Hx. unfold is_nan.
  rewrite FloatAxioms.eqb_spec, SFeqb_refl by exact Hx.
  reflexivity.
Qed.

Lemma float_sub_finite (a b : float) :
  is_finite a = true -> is_finite b = true -> Prim2SF (a - b) <> S754_nan.
Proof.
  intros Ha Hb. rewrite sub_spec.
  apply SFsub_finite; apply is_finite_spec; assumption.
Qed.

Lemma float_square_nonneg (x : float) :
  Prim2SF x <> S754_nan -> fnonneg (x * x).
Proof. intros Hx. unfold fnonneg. rewrite mul_spec. apply SFmul_square, Hx. Qed.

Lemma float_add_nonneg (a b : float) :
  fnonneg a -> fnonneg b -> fnonneg (a + b).
Proof. unfold fnonneg. rewrite add_spec. apply SFadd_nonneg. Qed.

Lemma float_sqrt_nonneg (a : float) : fnonneg a -> fnonneg (sqrt a).
Proof. unfold fnonneg. rewrite sqrt_spec. apply SFsqrt_nonneg. Qed.

Lemma floor_at_least_one (mag : float) :
  fnonneg mag ->
  (1 <=? (if mag <? 1 then 1 else mag)) = true.
Proof.
  intros Hm. destruct (mag <? 1) eqn:E; [reflexivity|].
  rewrite FloatAxioms.ltb_spec in E. rewrite FloatAxioms.leb_spec.
  change (Prim2SF 1) with (S754_finite false 4503599627370496 (-52)) in *.
  apply SFleb_of_not_ltb; assumption.
Qed.

Lemma float_max_at_least (s c : float) (mc : positive) (ec : Z) :
  Prim2SF c = S754_finite false mc ec -> fnonneg s ->
  (c <=? (if is_nan s || is_nan c then nan
          else if s <? c then c
          else if c <? s then s
          else if get_sign s then c else s)) = true.
Proof.
  intros Hc Hs.
  rewrite (is_nan_false s) by (eapply sf_signed_not_nan, Hs).
  rewrite (is_nan_false c) by (rewrite Hc; discriminate).
  cbn [orb].
  assert (Hcc : (c <=? c) = true)
    by (rewrite FloatAxioms.leb_spec, Hc; apply SFleb_refl_finite).
  destruct (s <? c) eqn:E1; [exact Hcc|].
  assert (Hcs : (c <=? s) = true).
  { rewrite FloatAxioms.leb_spec, Hc. rewrite FloatAxioms.ltb_spec, Hc in E1.
    apply SFleb_of_not_ltb; assumption. }
  destruct (c <? s); [exact Hcs|].
  destruct (get_sign s); assumption.
Qed.

Lemma float_mul_at_least (c a g : float) (mc : positive) (ec : Z) :
  Prim2SF c = S754_finite false mc ec -> (-1074 < ec)%Z ->
  (c <=? a) = true -> (1 <=? g) = true ->
  (c <=? a * g) = true /\ (0 <? a * g) = true /\ (a * g =? 0) = false.
Proof.
  intros Hc Hec Ha Hg.
  rewrite FloatAxioms.leb_spec, Hc in Ha. rewrite FloatAxioms.leb_spec in Hg.
  change (Prim2SF 1) with (S754_finite false 4503599627370496 (-52)) in Hg.
  assert (H : SFleb (S754_finite false mc ec) (Prim2SF (a * g)) = true).
  { rewrite mul_spec.
    apply SFmul_at_least; auto using Prim2SF_valid. }
  rewrite FloatAxioms.leb_spec, FloatAxioms.ltb_spec, FloatAxioms.eqb_spec, Hc.
  change (Prim2SF 0) with (S754_zero false).
  destruct (SFleb_positive _ _ _ H) as (H1 & H2 & _). auto.
Qed.
End Binary64.

Section Binary64Opp.
Local Open Scope float_scope.

Lemma float_mul_opp_l (x y : float) : (- x) * y = - (x * y).
Proof.
  apply Prim2SF_inj. rewrite mul_spec, !opp_spec, mul_spec.
  apply SFmul_opp_l.
Qed.

Lemma float_opp_involutive (x : float) : - - x = x.
Proof. apply Prim2SF_inj. rewrite !opp_spec. apply SFopp_involutive. Qed.

Lemma float_sub_add_opp (x y : float) : x - y = x + - y.
Proof.
  apply Prim2SF_inj. rewrite sub_spec, add_spec, opp_spec.
  apply SFsub_add_opp.
Qed.

Lemma float_add_zero_same (x : float) : same_number (x + 0) x.
Proof.
  unfold same_number.
  destruct (Prim2SF x) as [[|]|s| |s m e] eqn:E.
  - right. rewrite FloatAxioms.eqb_spec, add_spec, E. reflexivity.
  - left. apply Prim2SF_inj. rewrite add_spec, E. reflexivity.
  - left. apply Prim2SF_inj. rewrite add_spec, E. destruct s; reflexivity.
  - left. apply Prim2SF_inj. rewrite add_spec, E. reflexivity.
  - left. apply Prim2SF_inj. rewrite add_spec, E. reflexivity.
Qed.

Lemma float_add_zero_twice (x : float) : x + 0 + 0 = x + 0.
Proof.
  apply Prim2SF_inj. rewrite !add_spec.
  change (Prim2SF 0) with (S754_zero false).
  unfold SF64add. rewrite !SFadd_zero_r.
  destruct (Prim2SF x) as [[|]|s| |s m e]; reflexivity.
Qed.
End Binary64Opp.

(** ** Properties in exact arithmetic *)

Ltac vec_real :=
  repeat match goal with
         | v : Vector2.t R |- _ => destruct v
         | v : Vector3.t R |- _ => destruct v
         end;
  cbn;
  unfold Vector2.add, Vector2.sub, Vector2.multiplyScalar,
    Vector3.add, Vector3.sub, Vector3.multiplyScalar;
  cbn; f_equal; lra.

Lemma min_real : @Bounded.min R _ = (1 / 10000)%R.
Proof.
  unfold Bounded.min, decimal. change (10 ^ Z.of_nat 4)%Z with 10000%Z.
  reflexivity.
Qed.

Lemma floor_mag_real (s : R) : (1 <= floor_mag s)%R.
Proof.
  unfold floor_mag. cbv zeta. simpl. case_bool_decide; lra.
Qed.

Lemma divisor_real `{!Vector R V} (min : R) (r : V) :
  (min <= divisor min r)%R \/ (min <= 0)%R.
Proof.
  destruct (Rle_dec min 0) as [Hle|Hlt]; [right; exact Hle|left].
  unfold divisor. cbv zeta.
  pose proof (floor_mag_real (lengthSq r)) as Hf.
  change (min <= Rmax (lengthSq r) min * floor_mag (lengthSq r))%R.
  pose proof (Rmax_r (lengthSq r) min) as Hm.
  nra.
Qed.

(** *** The divisor on binary64 numbers *)

Section DivisorBinary64.
Local Open Scope float_scope.

(** The constant [min] of either file is the float [0.0001]. *)
Lemma min_binary64 :
  @Bounded.min float _ = 0.0001 /\ @Unbounded.min float _ = 0.0001.
Proof. split; vm_compute; reflexivity. Qed.

(** Between two positions with finite coordinates [magSq] is [+0], a
    positive number or [+Infinity]: a difference of finite numbers is a
    number, a square is not negative, and neither is a sum of squares. *)
Lemma lengthSq_nonneg2 (p1 p2 : Vector2.t float) :
  finite2 p1 = true -> finite2 p2 = true -> fnonneg (lengthSq (sub p2 p1)).
Proof.
  unfold finite2. rewrite !andb_true_iff. intros [H1x H1y] [H2x H2y].
  apply float_add_nonneg; apply float_square_nonneg, float_sub_finite;
    assumption.
Qed.

Lemma lengthSq_nonneg3 (p1 p2 : Vector3.t float) :
  finite3 p1 = true -> finite3 p2 = true -> fnonneg (lengthSq (sub p2 p1)).
Proof.
  unfold finite3. rewrite !andb_true_iff.
  intros [[H1x H1y] H1z] [[H2x H2y] H2z].
  apply float_add_nonneg; [apply float_add_nonneg|];
    apply float_square_nonneg, float_sub_finite; assumption.
Qed.

(** [Math.max(magSq, 0.0001)] is at least [0.0001] and [mag] at least 1;
    their rounded product is at least [0.0001]. *)
Lemma divisor_binary64 {V} `{!Vector float V} (r : V) :
  fnonneg (lengthSq r) ->
  let d := divisor 0.0001 r in
  (0.0001 <=? d) = true /\ (0 <? d) = true /\ (d =? 0) = false.
Proof.
  intros Hs d. subst d. unfold divisor. cbv zeta.
  apply (float_mul_at_least 0.0001 _ _ 7378697629483821 (-66));
    [reflexivity|lia| |].
  - apply (float_max_at_least _ _ 7378697629483821 (-66));
      [reflexivity|exact Hs].
  - apply floor_at_least_one, float_sqrt_nonneg, Hs.
Qed.
End DivisorBinary64.

(** C6. For any two positions with finite coordinates (equal ones
    included), the divisor [Math.max(magSq, min) * mag] under [tmp], with
    [min = 0.0001] and [mag] raised to 1 when the distance is below 1, is at
    least [0.0001]; it is positive, and it is not zero.
    - On the binary64 numbers of the program, in the bounded and in the
      unbounded file: whatever rounds, underflows (down to [magSq = 0]) or
      overflows on the way, the divisor is a positive number or [+Infinity],
      never a zero and never [NaN].
    - In exact arithmetic, for the vectors of both files. *)
Theorem divisor_at_least_min :
  (forall p1 p2 : Vector2.t float,
     finite2 p1 = true -> finite2 p2 = true ->
     let d := divisor Bounded.min (sub p2 p1) in
     (0.0001 <=? d) = true /\ (0 <? d) = true /\ (d =? 0) = false)%float /\
  (forall p1 p2 : Vector3.t float,
     finite3 p1 = true -> finite3 p2 = true ->
     let d := divisor Unbounded.min (sub p2 p1) in
     (0.0001 <=? d) = true /\ (0 <? d) = true /\ (d =? 0) = false)%float /\
  (forall V (VR : Vector R V) (p1 p2 : V),
     let d := divisor Bounded.min (sub p2 p1) in
     (1 / 10000 <= d)%R /\ (0 < d)%R /\ d <> 0%R).
Proof.
  split; [|split].
  - intros p1 p2 H1 H2. rewrite (proj1 min_binary64).
    apply divisor_binary64, lengthSq_nonneg2; assumption.
  - intros p1 p2 H1 H2. rewrite (proj2 min_binary64).
    apply divisor_binary64, lengthSq_nonneg3; assumption.
  - intros V VR p1 p2 d. subst d. rewrite min_real.
    destruct (divisor_real (1 / 10000)%R (sub p2 p1)) as [Hd|Hd]; lra.
Qed.

Lemma divisor_at_least_min_witness :
  (finite2 (Vector2.mk 0.3 0.7) = true /\
   finite2 (Vector2.mk 1e200 (-4)) = true /\
   let d :=
     divisor Bounded.min (sub (Vector2.mk 0.3 0.7) (Vector2.mk 0.3 0.7)) in
   let d' :=
     divisor Bounded.min (sub (Vector2.mk 1e200 (-4)) (Vector2.mk 0.3 0.7)) in
   d = 0.0001 /\ (0.0001 <=? d) = true /\
   d' = infinity /\ (0.0001 <=? d') = true)%float.
Proof.
  split; [reflexivity|]. split; [reflexivity|]. cbv zeta.
  split; [vm_compute; reflexivity|].
  split.
  - apply (proj1 divisor_at_least_min
             (Vector2.mk 0.3 0.7)%float (Vector2.mk 0.3 0.7)%float);
      reflexivity.
  - split; [vm_compute; reflexivity|].
    apply (proj1 divisor_at_least_min
             (Vector2.mk 0.3 0.7)%float (Vector2.mk 1e200 (-4))%float);
      reflexivity.
Defined.

Lemma third_law_real2 (a a' c c' t : Vector2.t R) (mi mj : R) :
  a' = add a (multiplyScalar t mj) -> c' = sub c (multiplyScalar t mi) ->
  multiplyScalar (sub a' a) mi =
  multiplyScalar (multiplyScalar (sub c' c) mj) (-1)%R.
Proof. intros -> ->. vec_real. Qed.

Lemma third_law_real3 (a a' c c' t : Vector3.t R) (mi mj : R) :
  a' = add a (multiplyScalar t mj) -> c' = sub c (multiplyScalar t mi) ->
  multiplyScalar (sub a' a) mi =
  multiplyScalar (multiplyScalar (sub c' c) mj) (-1)%R.
Proof. intros -> ->. vec_real. Qed.

(** *** The third law on binary64 numbers *)

(** Subtracting a vector is adding its opposite, bit for bit. *)
Lemma sub_add_negated2 (a s : Vector2.t float) : sub a s = add a (negated2 s).
Proof.
  destruct a, s. cbn. unfold Vector2.sub, Vector2.add, negated2. cbn.
  rewrite !float_sub_add_opp. reflexivity.
Qed.

Lemma sub_add_negated3 (a s : Vector3.t float) : sub a s = add a (negated3 s).
Proof.
  destruct a, s. cbn. unfold Vector3.sub, Vector3.add, negated3. cbn.
  rewrite !float_sub_add_opp. reflexivity.
Qed.

(** With one mass [m] on both sides the two products round alike: the
    opposite of a rounded product is the rounded product of the opposite. *)
Lemma third_law_equal_masses2 (t : Vector2.t float) (m : float) :
  multiplyScalar (multiplyScalar t m) m =
  negated2 (multiplyScalar (negated2 (multiplyScalar t m)) m).
Proof.
  destruct t. cbn. unfold Vector2.multiplyScalar, negated2. cbn.
  rewrite !float_mul_opp_l, !float_opp_involutive. reflexivity.
Qed.

Lemma third_law_equal_masses3 (t : Vector3.t float) (m : float) :
  multiplyScalar (multiplyScalar t m) m =
  negated3 (multiplyScalar (negated3 (multiplyScalar t m)) m).
Proof.
  destruct t. cbn. unfold Vector3.multiplyScalar, negated3. cbn.
  rewrite !float_mul_opp_l, !float_opp_involutive. reflexivity.
Qed.

(** C4, as the code has it.  For a pair [i < j] of bodies of the array, the
    pass of the inner loop's body ([pair_step], which the accumulation pass
    runs once per pair, see [inner_loop_passes]) adds [tmp * mass_j] to the
    acceleration of body [i] and subtracts [tmp * mass_i], with the same
    [tmp], from that of body [j].
    - On the binary64 numbers of the program, in two and in three
      dimensions: the pass adds the contribution [ci = tmp * mass_j] to the
      acceleration of body [i] and the contribution [cj = - (tmp * mass_i)]
      to that of body [j] (subtracting is adding the opposite); and when
      the two masses are equal (each file gives all its bodies one mass),
      [ci * mass_i] is the opposite of [cj * mass_j], bit for bit.
    - In exact arithmetic, for all positions and all masses, in two and in
      three dimensions: the change of the acceleration of body [i] times
      [mass_i] is the opposite of the change of the acceleration of body [j]
      times [mass_j]. *)
Theorem third_law_pairwise :
  (forall (min : float) (bodies : list (Body (Vector2.t float) float))
          i j bi bj,
     i < j -> bodies !! i = Some bi -> bodies !! j = Some bj ->
     let tmp := force_dir min (pos bi) (pos bj) in
     let ci := multiplyScalar tmp (mass bj) in
     let cj := negated2 (multiplyScalar tmp (mass bi)) in
     let bodies' := pair_step min i (pos bi) (mass bi) bodies j in
     bodies' !! i = Some (set_acc (add (acc bi) ci) bi) /\
     bodies' !! j = Some (set_acc (add (acc bj) cj) bj) /\
     (mass bi = mass bj ->
      multiplyScalar ci (mass bi) =
      negated2 (multiplyScalar cj (mass bj)))) /\
  (forall (min : float) (bodies : list (Body (Vector3.t float) float))
          i j bi bj,
     i < j -> bodies !! i = Some bi -> bodies !! j = Some bj ->
     let tmp := force_dir min (pos bi) (pos bj) in
     let ci := multiplyScalar tmp (mass bj) in
     let cj := negated3 (multiplyScalar tmp (mass bi)) in
     let bodies' := pair_step min i (pos bi) (mass bi) bodies j in
     bodies' !! i = Some (set_acc (add (acc bi) ci) bi) /\
     bodies' !! j = Some (set_acc (add (acc bj) cj) bj) /\
     (mass bi = mass bj ->
      multiplyScalar ci (mass bi) =
      negated3 (multiplyScalar cj (mass bj)))) /\
  (forall (min : R) (bodies : list (Body (Vector2.t R) R)) i j bi bj,
     i < j -> bodies !! i = Some bi -> bodies !! j = Some bj ->
     exists bi' bj',
       pair_step min i (pos bi) (mass bi) bodies j !! i = Some bi' /\
       pair_step min i (pos bi) (mass bi) bodies j !! j = Some bj' /\
       multiplyScalar (sub (acc bi') (acc bi)) (mass bi) =
       multiplyScalar (multiplyScalar (sub (acc bj') (acc bj)) (mass bj))
                      (-1)%R) /\
  (forall (min : R) (bodies : list (Body (Vector3.t R) R)) i j bi bj,
     i < j -> bodies !! i = Some bi -> bodies !! j = Some bj ->
     exists bi' bj',
       pair_step min i (pos bi) (mass bi) bodies j !! i = Some bi' /\
       pair_step min i (pos bi) (mass bi) bodies j !! j = Some bj' /\
       multiplyScalar (sub (acc bi') (acc bi)) (mass bi) =
       multiplyScalar (multiplyScalar (sub (acc bj') (acc bj)) (mass bj))
                      (-1)%R).
Proof.
  split; [|split; [|split]].
  - intros min bodies i j bi bj Hij Hi Hj tmp ci cj bodies'.
    destruct (pair_step_lookup min i j bodies bi bj) as [H1 H2];
      [lia|exact Hi|exact Hj|].
    split; [exact H1|]. split.
    + subst bodies' cj tmp. rewrite H2. unfold acc_sub.
      rewrite sub_add_negated2. reflexivity.
    + intros Hm. subst ci cj. rewrite Hm. apply third_law_equal_masses2.
  - intros min bodies i j bi bj Hij Hi Hj tmp ci cj bodies'.
    destruct (pair_step_lookup min i j bodies bi bj) as [H1 H2];
      [lia|exact Hi|exact Hj|].
    split; [exact H1|]. split.
    + subst bodies' cj tmp. rewrite H2. unfold acc_sub.
      rewrite sub_add_negated3. reflexivity.
    + intros Hm. subst ci cj. rewrite Hm. apply third_law_equal_masses3.
  - intros min bodies i j bi bj Hij Hi Hj.
    destruct (pair_step_lookup min i j bodies bi bj) as [H1 H2];
      [lia|exact Hi|exact Hj|].
    eexists _, _. split; [exact H1|]. split; [exact H2|].
    eapply third_law_real2; reflexivity.
  - intros min bodies i j bi bj Hij Hi Hj.
    destruct (pair_step_lookup min i j bodies bi bj) as [H1 H2];
      [lia|exact Hi|exact Hj|].
    eexists _, _. split; [exact H1|]. split; [exact H2|].
    eapply third_law_real3; reflexivity.
Qed.

Lemma third_law_pairwise_witness :
  (let bodies :=
     [ new_Body (Vector2.mk (-1) 0) (Vector2.mk 0 0) 2;
       new_Body (Vector2.mk 2 0) (Vector2.mk 0 0) 2 ] in
   let ci := Vector2.mk 0.22222222222222221 0 in
   let cj := Vector2.mk (-0.22222222222222221) (-0) in
   pair_step Bounded.min 0%nat (Vector2.mk (-1) 0) 2 bodies 1%nat =
     [ mkBody (Vector2.mk (-1) 0) (Vector2.mk 0 0) (add vzero ci) 2;
       mkBody (Vector2.mk 2 0) (Vector2.mk 0 0) (add vzero cj) 2 ] /\
   multiplyScalar ci 2 = negated2 (multiplyScalar cj 2))%float.
Proof.
  cbv zeta.
  destruct (proj1 third_law_pairwise Bounded.min
              [ new_Body (Vector2.mk (-1) 0) (Vector2.mk 0 0) 2;
                new_Body (Vector2.mk 2 0) (Vector2.mk 0 0) 2 ]%float
              0%nat 1%nat
              (new_Body (Vector2.mk (-1) 0) (Vector2.mk 0 0) 2)%float
              (new_Body (Vector2.mk 2 0) (Vector2.mk 0 0) 2)%float)
    as (H1 & H2 & H3); [lia|reflexivity|reflexivity|].
  cbv zeta in H3. split.
  - vm_compute. reflexivity.
  - pose proof (H3 eq_refl) as H. vm_compute in H. vm_compute. exact H.
Defined.

(** C4 fails on binary64 numbers when the masses differ.  The two bodies of
    [two_unequal_bodies], of masses 3 and 5, start with zero accelerations,
    so that what the pass leaves in them is what it added: [ci] to the
    first and [cj] to the second.  Every product is rounded on its own, and
    [ci * 3] and the opposite of [cj * 5] differ in the last bit. *)
Lemma third_law_rounding :
  (let ci := Vector2.mk 0.55555555555555558 0 in
   let cj := Vector2.mk (-0.33333333333333331) (-0) in
   acc <$> two_unequal_bodies = [vzero; vzero] /\
   mass <$> two_unequal_bodies = [3; 5] /\
   acc <$> accumulate Bounded.min two_unequal_bodies =
     [add vzero ci; add vzero cj] /\
   Vector2.x (multiplyScalar ci 3) = 1.6666666666666667 /\
   Vector2.x (negated2 (multiplyScalar cj 5)) = 1.6666666666666665 /\
   (1.6666666666666667 =? 1.6666666666666665) = false)%float.
Proof. vm_compute. repeat split; reflexivity. Qed.

Lemma outside_real (c : R) :
  Bounded.outside c = false <-> (-3 < c < 3)%R.
Proof.
  unfold Bounded.outside. simpl. rewrite orb_false_iff.
  rewrite !bool_decide_eq_false. lra.
Qed.

Lemma reflect_inside (b : Body (Vector2.t R) R) :
  inside (pos b) -> Bounded.reflect b = b.
Proof.
  intros [Hx Hy]. unfold Bounded.reflect. cbv zeta.
  apply outside_real in Hx. rewrite Hx.
  apply outside_real in Hy. rewrite Hy. reflexivity.
Qed.

(** Over the reals the tests of [reflect] read as the inequalities of the
    source, and the multiplication by [-1] as the opposite. *)
Lemma reflect_real (b : Body (Vector2.t R) R) :
  pos (Bounded.reflect b) = pos b /\
  ((Vector2.x (pos b) <= -3 \/ 3 <= Vector2.x (pos b))%R ->
   Vector2.x (vel (Bounded.reflect b)) = (- Vector2.x (vel b))%R) /\
  ((Vector2.y (pos b) <= -3 \/ 3 <= Vector2.y (pos b))%R ->
   Vector2.y (vel (Bounded.reflect b)) = (- Vector2.y (vel b))%R) /\
  (inside (pos b) -> vel (Bounded.reflect b) = vel b).
Proof.
  split; [|split; [|split]].
  - unfold Bounded.reflect. cbv zeta.
    destruct (Bounded.outside (Vector2.x (pos b)));
      match goal with |- context [if ?c then _ else _] => destruct c end;
      reflexivity.
  - intros Hx.
    assert (Ho : Bounded.outside (Vector2.x (pos b)) = true).
    { destruct (Bounded.outside _) eqn:E; [reflexivity|].
      apply outside_real in E. lra. }
    unfold Bounded.reflect. cbv zeta. rewrite Ho.
    match goal with |- context [if ?c then _ else _] => destruct c end;
      cbn; lra.
  - intros Hy.
    assert (Ho : Bounded.outside (Vector2.y (pos b)) = true).
    { destruct (Bounded.outside _) eqn:E; [reflexivity|].
      apply outside_real in E. lra. }
    unfold Bounded.reflect. cbv zeta.
    destruct (Bounded.outside (Vector2.x (pos b))); cbn [pos set_vel];
      rewrite Ho; cbn; lra.
  - intros Hin. rewrite reflect_inside by exact Hin. reflexivity.
Qed.

Lemma single_body_exact
    (dt min : R) (p v : Vector2.t R) (m : R) (k : nat) :
  (forall j, 1 <= j <= k -> inside (position_at p v (INR j * dt))) ->
  Bounded.run dt min k [new_Body p v m] =
  [mkBody (position_at p v (INR k * dt)) v vzero m].
Proof.
  induction k as [|k IH]; intros Hin.
  - unfold Bounded.run, new_Body, position_at. simpl. do 2 f_equal.
    vec_real.
  - unfold Bounded.run in *.
    rewrite Nat.iter_succ, IH by (intros; apply Hin; lia).
    unfold Bounded.animate. rewrite accumulate_single.
    specialize (Hin (S k) ltac:(lia)).
    assert (Hu : update dt (mkBody (position_at p v (INR k * dt)) v vzero m) =
                 mkBody (position_at p v (INR (S k) * dt)) v vzero m).
    { unfold update, position_at, set_acc, set_vel, set_pos.
      cbn [pos vel acc mass]. rewrite S_INR. f_equal; vec_real. }
    cbn [map]. rewrite Hu. rewrite reflect_inside by exact Hin. reflexivity.
Qed.

Section SingleBody.
Context `{Number K}.

Lemma reflect_clear (b : Body (Vector2.t K) K) :
  clear_of_walls b = true -> Bounded.reflect b = b.
Proof.
  unfold clear_of_walls. rewrite andb_true_iff, !negb_true_iff.
  intros [Hx Hy]. unfold Bounded.reflect. cbv zeta. rewrite Hx, Hy.
  reflexivity.
Qed.

Lemma pos_reflect (b : Body (Vector2.t K) K) :
  pos (Bounded.reflect b) = pos b.
Proof.
  unfold Bounded.reflect. cbv zeta.
  destruct (Bounded.outside (Vector2.x (pos b)));
    match goal with |- context [if ?c then _ else _] => destruct c end;
    reflexivity.
Qed.

Lemma mass_reflect (b : Body (Vector2.t K) K) :
  mass (Bounded.reflect b) = mass b.
Proof.
  unfold Bounded.reflect. cbv zeta.
  destruct (Bounded.outside (Vector2.x (pos b)));
    match goal with |- context [if ?c then _ else _] => destruct c end;
    reflexivity.
Qed.

Lemma clear_reflect (b : Body (Vector2.t K) K) :
  clear_of_walls (Bounded.reflect b) = clear_of_walls b.
Proof. unfold clear_of_walls. rewrite pos_reflect. reflexivity. Qed.

Lemma bounded_animate_single dt min (b : Body (Vector2.t K) K) :
  Bounded.animate dt min [b] = [Bounded.reflect (update dt b)].
Proof. reflexivity. Qed.

(** With one body the pass meets no pair: in any arithmetic the body leaves
    every frame with its acceleration at zero, whatever the walls do. *)
Lemma single_body_bounded_acc dt min (p v : Vector2.t K) (m : K) k :
  exists b, Bounded.run dt min k [new_Body p v m] = [b] /\
            acc b = vzero /\ mass b = m.
Proof.
  induction k as [|k (b & Hb & Ha & Hm)].
  - exists (new_Body p v m). auto.
  - exists (Bounded.reflect (update dt b)).
    unfold Bounded.run in *. rewrite Nat.iter_succ, Hb.
    split; [apply bounded_animate_single|].
    rewrite acc_reflect, mass_reflect. split; [reflexivity|exact Hm].
Qed.
End SingleBody.

Section SingleBodyBinary64.
Local Open Scope float_scope.

Lemma add_vzero_twice (v : Vector2.t float) :
  add (add v vzero) vzero = add v vzero.
Proof.
  destruct v as [a b]. cbn. unfold Vector2.add. cbn.
  change (float_of_Z 0) with 0. rewrite !float_add_zero_twice. reflexivity.
Qed.

Lemma add_vzero_same (v : Vector2.t float) :
  same_number (Vector2.x (add v vzero)) (Vector2.x v) /\
  same_number (Vector2.y (add v vzero)) (Vector2.y v).
Proof. destruct v as [a b]. split; apply float_add_zero_same. Qed.

Lemma scale_vzero (dt : float) :
  0 * dt = 0 -> multiplyScalar (vzero : Vector2.t float) dt = vzero.
Proof.
  intros Hdt. cbn. unfold Vector2.multiplyScalar. cbn.
  change (float_of_Z 0) with 0. rewrite Hdt. reflexivity.
Qed.

(** On binary64 numbers, while the body is clear of the walls: the first
    update adds [0 * dt = +0] to the velocity, the later ones find it
    unchanged by that, and every update adds the rounded [vel * dt] to the
    position. *)
Lemma single_body_binary64 (dt min : float) (p v : Vector2.t float) (m : float)
    (k : nat) :
  0 * dt = 0 ->
  (forall j, 1 <= j <= S k ->
     Forall (fun b => clear_of_walls b = true)
            (Bounded.run dt min j [new_Body p v m])) ->
  Bounded.run dt min (S k) [new_Body p v m] =
  [mkBody (drift dt (add v vzero) k (add p (multiplyScalar v dt)))
          (add v vzero) vzero m].
Proof.
  intros Hdt. induction k as [|k IH]; intros Hin.
  - specialize (Hin 1%nat ltac:(lia)).
    change (Bounded.run dt min 1 [new_Body p v m])
      with [Bounded.reflect (update dt (new_Body p v m))] in *.
    apply Forall_inv in Hin. rewrite clear_reflect in Hin.
    rewrite reflect_clear by exact Hin.
    unfold update, new_Body, set_acc, set_vel, set_pos, drift.
    cbn [pos vel acc mass Nat.iter nat_rect]. rewrite scale_vzero by exact Hdt.
    reflexivity.
  - assert (Hprev : forall j, 1 <= j <= S k ->
              Forall (fun b => clear_of_walls b = true)
                     (Bounded.run dt min j [new_Body p v m]))
      by (intros j Hj; apply Hin; lia).
    specialize (IH Hprev).
    pose proof (Hin (S (S k)) ltac:(lia)) as Hlast.
    change (Bounded.run dt min (S (S k)) [new_Body p v m])
      with (Bounded.animate dt min (Bounded.run dt min (S k) [new_Body p v m]))
      in Hlast |- *.
    rewrite IH in Hlast |- *.
    rewrite bounded_animate_single in Hlast |- *.
    apply Forall_inv in Hlast. rewrite clear_reflect in Hlast.
    rewrite reflect_clear by exact Hlast.
    unfold update, set_acc, set_vel, set_pos, drift.
    cbn [pos vel acc mass]. rewrite scale_vzero by exact Hdt.
    rewrite add_vzero_twice, Nat.iter_succ. reflexivity.
Qed.
End SingleBodyBinary64.

(** C8, as the code has it.  With a single body the force loop meets no
    pair.
    - In any arithmetic, after any number of frames, the array still holds
      the one body, with its mass and with its acceleration at the zero
      vector.
    - On the binary64 numbers of the program, for a [dt] that is finite and
      not negative (so that [0 * dt] is [+0]; the file's [dt] is [0.001])
      and for as long as the body has stayed clear of the walls (after each
      frame so far both tests of the boundary code fail): the velocity is
      constant from the first frame on, and it is the initial velocity with
      [+0] added to each component, the same number (only a [-0] becomes
      [+0]); every frame adds the rounded [velocity * dt] to the position.
    - In exact arithmetic, for as long as the body has stayed strictly
      inside the box: the velocity is the initial one and the position is
      the initial one plus the velocity times [k * dt]. *)
Theorem single_body_until_wall :
  (forall K (N : Number K) (dt min : K) (p v : Vector2.t K) (m : K) (k : nat),
     exists b, Bounded.run dt min k [new_Body p v m] = [b] /\
               acc b = vzero /\ mass b = m) /\
  (forall (dt min : float) (p v : Vector2.t float) (m : float) (k : nat),
     (0 * dt = 0)%float ->
     (forall j, 1 <= j <= S k ->
        Forall (fun b => clear_of_walls b = true)
               (Bounded.run dt min j [new_Body p v m])) ->
     Bounded.run dt min (S k) [new_Body p v m] =
     [mkBody (drift dt (add v vzero) k (add p (multiplyScalar v dt)))
             (add v vzero) vzero m] /\
     same_number (Vector2.x (add v vzero)) (Vector2.x v) /\
     same_number (Vector2.y (add v vzero)) (Vector2.y v)) /\
  (forall (dt min : R) (p v : Vector2.t R) (m : R) (k : nat),
     (forall j, 1 <= j <= k -> inside (position_at p v (INR j * dt))) ->
     Bounded.run dt min k [new_Body p v m] =
     [mkBody (position_at p v (INR k * dt)) v vzero m]).
Proof.
  split; [|split].
  - intros. apply single_body_bounded_acc.
  - intros dt min p v m k Hdt Hin.
    split; [apply single_body_binary64; assumption|apply add_vzero_same].
  - apply single_body_exact.
Qed.

Lemma single_body_until_wall_witness :
  (let p := Vector2.mk 0.1 0 in
   let v := Vector2.mk 0.1 0 in
   0 * Bounded.dt = 0 /\
   (forall j, 1 <= j <= 3 ->
      Forall (fun b => clear_of_walls b = true)
             (Bounded.run Bounded.dt Bounded.min j [new_Body p v 2])) /\
   Bounded.run Bounded.dt Bounded.min 3 [new_Body p v 2] =
   [mkBody (Vector2.mk 0.10030000000000001 0) v vzero 2])%float.
Proof.
  cbv zeta.
  assert (Hdt : (0 * Bounded.dt = 0)%float) by (vm_compute; reflexivity).
  assert (Hin : forall j, 1 <= j <= 3 ->
            Forall (fun b => clear_of_walls b = true)
              (Bounded.run Bounded.dt Bounded.min j
                 [new_Body (Vector2.mk 0.1 0) (Vector2.mk 0.1 0) 2]%float)).
  { intros j Hj. assert (Hj' : j = 1 \/ j = 2 \/ j = 3) by lia.
    destruct Hj' as [-> | [-> | ->]]; apply Forall_singleton;
      vm_compute; reflexivity. }
  split; [exact Hdt|]. split; [exact Hin|].
  etransitivity;
    [exact (proj1 (proj1 (proj2 single_body_until_wall) Bounded.dt Bounded.min
              (Vector2.mk 0.1 0)%float (Vector2.mk 0.1 0)%float 2%float 2
              Hdt Hin))|].
  vm_compute. reflexivity.
Defined.

(** X15. In the unbounded file nothing stops the single body: its motion
    is uniform for ever. *)
Lemma single_body_unbounded (dt min : R) (p v : Vector3.t R) (m : R) k :
  Unbounded.run dt min k [new_Body p v m] =
  [mkBody (position_at p v (INR k * dt)) v vzero m].
Proof.
  induction k as [|k IH].
  - unfold Unbounded.run, new_Body, position_at. simpl. do 2 f_equal.
    vec_real.
  - unfold Unbounded.run in *. rewrite Nat.iter_succ, IH.
    unfold Unbounded.animate, integrate. rewrite accumulate_single.
    cbn [map]. f_equal.
    unfold update, position_at, set_acc, set_vel, set_pos.
    cbn [pos vel acc mass]. rewrite S_INR. f_equal; vec_real.
Qed.

Lemma outside_real_true (c : R) :
  (c <= -3 \/ 3 <= c)%R -> Bounded.outside c = true.
Proof.
  intros Hc. destruct (Bounded.outside c) eqn:E; [reflexivity|].
  apply outside_real in E. lra.
Qed.

(** The single body [body_at_wall] crosses the wall [x = 3] in one frame,
    and leaves the frame with the x component of its velocity reversed, on
    binary64 numbers as in exact arithmetic. *)
Lemma single_body_velocity_reversed_at_wall :
  (vel (@body_at_wall float _) = Vector2.mk 0.001 0 /\
   Bounded.run Bounded.dt Bounded.min 1 [body_at_wall] =
   [mkBody (Vector2.mk 3.0000005000000001 0) (Vector2.mk (-0.001) 0)
           (Vector2.mk 0 0) 2])%float /\
  (vel (@body_at_wall R _) = Vector2.mk (1 / 1000) 0 /\
   vel <$> Bounded.run Bounded.dt Bounded.min 1 [body_at_wall] =
   [Vector2.mk (- (1 / 1000)) 0])%R.
Proof.
  split; [split; vm_compute; reflexivity|].
  assert (Hd : @decimal R _ 1 3 = (1 / 1000)%R).
  { unfold decimal. change (10 ^ Z.of_nat 3)%Z with 1000%Z. reflexivity. }
  assert (Hp : @decimal R _ 29999995 7 = (29999995 / 10000000)%R).
  { unfold decimal. change (10 ^ Z.of_nat 7)%Z with 10000000%Z. reflexivity. }
  split.
  - unfold body_at_wall, new_Body. cbn [vel]. rewrite Hd. reflexivity.
  - change (Bounded.run Bounded.dt Bounded.min 1 [@body_at_wall R _])
      with (Bounded.animate Bounded.dt Bounded.min [@body_at_wall R _]).
    unfold Bounded.animate. rewrite accumulate_single.
    cbn [map fmap list_fmap].
    unfold Bounded.dt, body_at_wall, new_Body, update, set_acc, set_vel,
      set_pos. cbn [pos vel acc mass]. rewrite Hd, Hp.
    unfold Bounded.reflect. cbv zeta. cbn [pos vel acc mass set_vel].
    rewrite (outside_real_true
               (Vector2.x (add (Vector2.mk (29999995 / 10000000) (#0)%js)
                  (multiplyScalar (Vector2.mk (1 / 1000) (#0)%js)
                                  (1 / 1000))))%R)
      by (cbn; lra).
    cbn [pos vel acc mass set_vel].
    rewrite (proj2 (outside_real
               (Vector2.y (add (Vector2.mk (29999995 / 10000000) (#0)%js)
                  (multiplyScalar (Vector2.mk (1 / 1000) (#0)%js)
                                  (1 / 1000))))%R))
      by (cbn; lra).
    cbn. f_equal. f_equal; lra.
Qed.

(** C8 fails in the bounded file, in two ways.  The single body
    [body_at_wall] crosses the wall [x = 3] in one frame and leaves the
    frame with the x component of its velocity reversed
    ([single_body_velocity_reversed_at_wall]).  And on binary64 numbers a
    body that starts at [(0.1, 0)] with the velocity [(0.1, 0)], clear of
    the walls all along, is after three frames at [x = 0.10030000000000001],
    not at the [0.1003] that [position(0) + velocity(0) * (3 * dt)] rounds
    to: the three additions are rounded one by one. *)
Lemma single_body_wall_and_rounding :
  ((vel (@body_at_wall float _) = Vector2.mk 0.001 0 /\
    Bounded.run Bounded.dt Bounded.min 1 [body_at_wall] =
    [mkBody (Vector2.mk 3.0000005000000001 0) (Vector2.mk (-0.001) 0)
            (Vector2.mk 0 0) 2])%float /\
   (vel (@body_at_wall R _) = Vector2.mk (1 / 1000) 0 /\
    vel <$> Bounded.run Bounded.dt Bounded.min 1 [body_at_wall] =
    [Vector2.mk (- (1 / 1000)) 0])%R) /\
  (let p := Vector2.mk 0.1 0 in
   let v := Vector2.mk 0.1 0 in
   (fun j => clear_of_walls <$>
               Bounded.run Bounded.dt Bounded.min j [new_Body p v 2])
     <$> [1; 2; 3]%nat = [[true]; [true]; [true]] /\
   Bounded.run Bounded.dt Bounded.min 3 [new_Body p v 2] =
   [mkBody (Vector2.mk 0.10030000000000001 0) v vzero 2] /\
   add p (multiplyScalar v (3 * Bounded.dt)) = Vector2.mk 0.1003 0 /\
   (0.10030000000000001 =? 0.1003) = false)%float.
Proof.
  split; [exact single_body_velocity_reversed_at_wall|].
  vm_compute. repeat split; reflexivity.
Qed.

(** ** The initial centring, in exact arithmetic *)

Section Centering.
Variable f : Body (Vector2.t R) R -> Vector2.t R.

Lemma foldl_weighted_x (a : Vector2.t R) (l : list (Body (Vector2.t R) R)) :
  Vector2.x (foldl (fun sum b => add sum (multiplyScalar (f b) (mass b))) a l)
  = (Vector2.x a + Rsum ((fun b => Vector2.x (f b) * mass b)%R <$> l))%R.
Proof.
  revert a.
  induction l as [|b l IH]; intros a; cbn [foldl fmap list_fmap Rsum foldr].
  - lra.
  - rewrite IH. cbn.
    fold (Rsum ((fun b => Vector2.x (f b) * mass b)%R <$> l)). lra.
Qed.

Lemma foldl_weighted_y (a : Vector2.t R) (l : list (Body (Vector2.t R) R)) :
  Vector2.y (foldl (fun sum b => add sum (multiplyScalar (f b) (mass b))) a l)
  = (Vector2.y a + Rsum ((fun b => Vector2.y (f b) * mass b)%R <$> l))%R.
Proof.
  revert a.
  induction l as [|b l IH]; intros a; cbn [foldl fmap list_fmap Rsum foldr].
  - lra.
  - rewrite IH. cbn.
    fold (Rsum ((fun b => Vector2.y (f b) * mass b)%R <$> l)). lra.
Qed.
End Centering.

Lemma Rsum_shift (g g' : Body (Vector2.t R) R -> R)
    (h : Body (Vector2.t R) R -> Body (Vector2.t R) R) (c m : R) l :
  Forall (fun b => mass b = m) l ->
  (forall b, g' (h b) = (g b - c)%R) -> (forall b, mass (h b) = mass b) ->
  Rsum ((fun b => g' b * mass b)%R <$> (h <$> l)) =
  (Rsum ((fun b => g b * mass b)%R <$> l) - c * m * INR (length l))%R.
Proof.
  intros Hm Hg Hh. induction Hm as [|b l Hb _ IH].
  - simpl. lra.
  - cbn [fmap list_fmap Rsum foldr length]. rewrite S_INR.
    fold (Rsum ((fun b => g' b * mass b)%R <$> (h <$> l))).
    fold (Rsum ((fun b => g b * mass b)%R <$> l)).
    rewrite IH, Hg, Hh, Hb. lra.
Qed.

Lemma weighted_mean_x f n (l : list (Body (Vector2.t R) R)) :
  Vector2.x (Bounded.weighted_mean f n l) =
  (Rsum ((fun b => Vector2.x (f b) * mass b)%R <$> l) * (1 / INR n))%R.
Proof.
  unfold Bounded.weighted_mean, divideScalar.
  change (Vector2.x (multiplyScalar ?v ?s)) with (Vector2.x v * s)%R.
  rewrite foldl_weighted_x. cbn. rewrite INR_IZR_INZ. lra.
Qed.

Lemma weighted_mean_y f n (l : list (Body (Vector2.t R) R)) :
  Vector2.y (Bounded.weighted_mean f n l) =
  (Rsum ((fun b => Vector2.y (f b) * mass b)%R <$> l) * (1 / INR n))%R.
Proof.
  unfold Bounded.weighted_mean, divideScalar.
  change (Vector2.y (multiplyScalar ?v ?s)) with (Vector2.y v * s)%R.
  rewrite foldl_weighted_y. cbn. rewrite INR_IZR_INZ. lra.
Qed.

Lemma vector2_eq (u v : Vector2.t R) :
  Vector2.x u = Vector2.x v -> Vector2.y u = Vector2.y v -> u = v.
Proof. destruct u, v. simpl. intros -> ->. reflexivity. Qed.

(** What "Centering bodies" does in exact arithmetic, when all [n] bodies
    have the mass [m]: it subtracts the mean of [mass * velocity] (and of
    [mass * position]), which is [m] times the mean velocity, so that the
    two means are multiplied by [1 - m].  They vanish for [m = 1]; for the
    [m = 2] of the file they are reversed. *)
Lemma centering_scales_means (m : R) (l : list (Body (Vector2.t R) R)) :
  0 < length l -> Forall (fun b => mass b = m) l ->
  let n := length l in
  Bounded.weighted_mean vel n (Bounded.centering n l) =
    multiplyScalar (Bounded.weighted_mean vel n l) (1 - m)%R /\
  Bounded.weighted_mean pos n (Bounded.centering n l) =
    multiplyScalar (Bounded.weighted_mean pos n l) (1 - m)%R.
Proof.
  intros Hn Hm n.
  assert (Hn' : (0 < INR n)%R) by (apply lt_0_INR; exact Hn).
  unfold Bounded.centering. cbv zeta.
  set (velSum := Bounded.weighted_mean vel n l).
  set (posSum := Bounded.weighted_mean pos n l).
  set (h := fun body : Body (Vector2.t R) R =>
              set_pos (sub (pos body) posSum)
                      (set_vel (sub (vel body) velSum) body)).
  change (map h l) with (h <$> l).
  split; apply vector2_eq.
  - rewrite weighted_mean_x.
    rewrite (Rsum_shift (fun b => Vector2.x (vel b)) _ h
               (Vector2.x velSum) m l Hm)
      by (intros; reflexivity).
    change (Vector2.x (multiplyScalar ?v ?s)) with (Vector2.x v * s)%R.
    fold n. subst velSum. rewrite !weighted_mean_x. field. lra.
  - rewrite weighted_mean_y.
    rewrite (Rsum_shift (fun b => Vector2.y (vel b)) _ h
               (Vector2.y velSum) m l Hm)
      by (intros; reflexivity).
    change (Vector2.y (multiplyScalar ?v ?s)) with (Vector2.y v * s)%R.
    fold n. subst velSum. rewrite !weighted_mean_y. field. lra.
  - rewrite weighted_mean_x.
    rewrite (Rsum_shift (fun b => Vector2.x (pos b)) _ h
               (Vector2.x posSum) m l Hm)
      by (intros; reflexivity).
    change (Vector2.x (multiplyScalar ?v ?s)) with (Vector2.x v * s)%R.
    fold n. subst posSum. rewrite !weighted_mean_x. field. lra.
  - rewrite weighted_mean_y.
    rewrite (Rsum_shift (fun b => Vector2.y (pos b)) _ h
               (Vector2.y posSum) m l Hm)
      by (intros; reflexivity).
    change (Vector2.y (multiplyScalar ?v ?s)) with (Vector2.y v * s)%R.
    fold n. subst posSum. rewrite !weighted_mean_y. field. lra.
Qed.

Lemma weighted_mean_vel_set_pos n (g : Body (Vector2.t R) R -> Vector2.t R)
    (l : list (Body (Vector2.t R) R)) :
  Bounded.weighted_mean vel n (map (fun b => set_pos (g b) b) l) =
  Bounded.weighted_mean vel n l.
Proof.
  apply vector2_eq.
  - rewrite !weighted_mean_x. change (map ?h l) with (h <$> l).
    rewrite <- list_fmap_compose. reflexivity.
  - rewrite !weighted_mean_y. change (map ?h l) with (h <$> l).
    rewrite <- list_fmap_compose. reflexivity.
Qed.

(** X14. After the whole initial sequence the mean of [mass * velocity] is
    [1 - mass] times the one of the sample: with the mass 2 of the file it
    is the opposite of the sample's, and is zero only if the sample's is. *)
Lemma init_mean_momentum (m : R) (n : nat) draws :
  0 < n ->
  Bounded.weighted_mean vel n (Bounded.init m n draws) =
  multiplyScalar (Bounded.weighted_mean vel n (Bounded.create m n draws))
                 (1 - m)%R.
Proof.
  intros Hn.
  assert (Hlen : length (Bounded.create m n draws) = n).
  { unfold Bounded.create. rewrite length_map, length_seq. reflexivity. }
  assert (Hm : Forall (fun b => mass b = m) (Bounded.create m n draws)).
  { unfold Bounded.create. apply Forall_fmap, Forall_forall. intros i _.
    reflexivity. }
  pose proof (centering_scales_means m (Bounded.create m n draws)) as Hc.
  rewrite Hlen in Hc. destruct (Hc Hn Hm) as [Hv _].
  unfold Bounded.init, Bounded.rescaling.
  destruct (Bounded.max_radius _); [|exact Hv].
  rewrite (weighted_mean_vel_set_pos n (fun b => divideScalar (pos b) r)).
  exact Hv.
Qed.

(** ** The code run on binary64 numbers *)

(** The order of the assignments of [update] shows: a body at rest with the
    acceleration [(1, 0)] does not move during the call, whereas the
    velocity the call leaves would have moved it by [(0.0001, 0)]. *)
Remark update_reads_old_velocity :
  (let b := mkBody (Vector2.mk 0 0) (Vector2.mk 0 0) (Vector2.mk 1 0) 1 in
   pos (update 0.01 b) = Vector2.mk 0 0 /\
   vel (update 0.01 b) = Vector2.mk 0.01 0 /\
   add (pos b) (multiplyScalar (vel (update 0.01 b)) 0.01) =
     Vector2.mk 0.0001 0)%float.
Proof. vm_compute. repeat split; reflexivity. Qed.

(** The decimal literals of the two files, as binary64 numbers. *)
Lemma literals_binary64 :
  (@Bounded.dt float _ = 0.001 /\ @Bounded.min float _ = 0.0001 /\
   @Unbounded.dt float _ = 0.01 /\ @Unbounded.min float _ = 0.0001 /\
   @decimal float _ 2 3 = 0.002 /\ @decimal float _ 2 2 = 0.02 /\
   @Bounded.mass0 float _ = 2 /\ @Unbounded.mass0 float _ = 1)%float.
Proof. vm_compute. repeat split; reflexivity. Qed.

(** C1, on the code.  For the sampling outcome [skewed_draws], with the 100
    bodies and the mass 2 of the file, the initial sequence leaves the mean
    of [mass * velocity] at about [(-0.002, 0)] and the mean of
    [mass * position] at about [(-1.33, 0)]; before the centring they were
    about [(0.002, 0)] and exactly [(1, 0)].  Neither mean is within
    [1e-9] of zero.  The largest distance to the origin is 1. *)
Theorem initial_means_not_centred :
  (let sample := Bounded.create Bounded.mass0 Bounded.n skewed_draws in
   let bodies := Bounded.init Bounded.mass0 Bounded.n skewed_draws in
   length bodies = Bounded.n /\
   Bounded.weighted_mean vel Bounded.n sample =
     Vector2.mk 0.0020000000000000013 0 /\
   Bounded.weighted_mean pos Bounded.n sample = Vector2.mk 1 0 /\
   Bounded.weighted_mean vel Bounded.n bodies =
     Vector2.mk (-0.0020000000000000022) 0 /\
   Bounded.weighted_mean pos Bounded.n bodies =
     Vector2.mk (-1.3333333333333339) 0 /\
   (1e-9 <? abs (Vector2.x (Bounded.weighted_mean vel Bounded.n bodies)))%float
     = true /\
   (1e-9 <? abs (Vector2.x (Bounded.weighted_mean pos Bounded.n bodies)))%float
     = true /\
   Bounded.max_radius bodies = Some 1)%float.
Proof. vm_compute. repeat split; reflexivity. Qed.

Lemma sqrt_4 : R_sqrt.sqrt 4 = 2%R.
Proof. replace 4%R with (2 * 2)%R by lra. apply sqrt_square. lra. Qed.

Lemma force_dir_example_real :
  force_dir (1 / 10000)%R (Vector2.mk (-1) 0)%R (Vector2.mk 1 0)%R
  = (Vector2.mk (1 / 4) 0)%R.
Proof.
  unfold force_dir, divideScalar, divisor, floor_mag. cbn.
  unfold Vector2.lengthSq, Vector2.sub, Vector2.multiplyScalar. cbn.
  replace ((1 - -1) * (1 - -1) + (0 - 0) * (0 - 0))%R with 4%R by lra.
  rewrite sqrt_4. rewrite bool_decide_eq_false_2 by lra.
  rewrite Rmax_left by lra. f_equal; lra.
Qed.

Lemma accumulate_example_real :
  accumulate (1 / 10000)%R two_bodies =
  [ mkBody (Vector2.mk (-1) 0) (Vector2.mk 0 0) (Vector2.mk (1 / 4) 0) 1;
    mkBody (Vector2.mk 1 0) (Vector2.mk 0 0) (Vector2.mk (- (1 / 4)) 0) 1 ]%R.
Proof.
  unfold accumulate, two_bodies. cbn [length seq foldl].
  unfold inner_loop.
  cbn [lookup list_lookup length seq foldl Nat.sub pos mass new_Body].
  unfold pair_step. cbn [lookup list_lookup pos mass new_Body].
  change (#(-1))%js with (-1)%R. change (#0)%js with 0%R.
  change (#1)%js with 1%R.
  rewrite force_dir_example_real.
  cbn [alter list_alter]. unfold acc_add, acc_sub, set_acc.
  cbn [pos vel acc mass].
  cbn [lookup list_lookup length seq foldl Nat.sub].
  unfold new_Body. cbn [pos vel acc mass].
  repeat f_equal; vec_real.
Qed.

Lemma animate_example_real :
  Bounded.animate (1 / 100)%R (1 / 10000)%R two_bodies =
  [ mkBody (Vector2.mk (-1) 0) (Vector2.mk (1 / 400) 0) (Vector2.mk 0 0) 1;
    mkBody (Vector2.mk 1 0) (Vector2.mk (- (1 / 400)) 0) (Vector2.mk 0 0) 1 ]%R.
Proof.
  unfold Bounded.animate. rewrite accumulate_example_real. cbn [map].
  rewrite !reflect_inside
    by (unfold inside, update, set_acc, set_vel, set_pos; cbn; lra).
  unfold update, set_acc, set_vel, set_pos. cbn [pos vel acc mass].
  repeat f_equal; vec_real.
Qed.

(** C2. The worked example, with [dt = 0.01] and [min = 0.0001].  Run on
    binary64 numbers: the squared distance is 4, the distance 2 is not
    raised, the divisor is 8 and [tmp] is [(0.25, 0)]; the accumulation pass
    leaves the accelerations [(0.25, 0)] and [(-0.25, 0)]; after the frame
    the body on the left has the velocity [(0.0025, 0)] and is still at
    [(-1, 0)], the body on the right has the velocity [(-0.0025, 0)] and is
    still at [(1, 0)], and both accelerations are reset.  In exact
    arithmetic the accelerations and the final state are the same
    numbers. *)
Theorem two_body_worked_example :
  (let p1 := Vector2.mk (-1) 0 in
   let p2 := Vector2.mk 1 0 in
   lengthSq (sub p2 p1) = 4 /\
   floor_mag 4 = 2 /\
   divisor Bounded.min (sub p2 p1) = 8 /\
   force_dir Bounded.min p1 p2 = Vector2.mk 0.25 0 /\
   accumulate Bounded.min two_bodies =
     [ mkBody p1 (Vector2.mk 0 0) (Vector2.mk 0.25 0) 1;
       mkBody p2 (Vector2.mk 0 0) (Vector2.mk (-0.25) 0) 1 ] /\
   Bounded.animate 0.01 Bounded.min two_bodies =
     [ mkBody p1 (Vector2.mk 0.0025 0) (Vector2.mk 0 0) 1;
       mkBody p2 (Vector2.mk (-0.0025) 0) (Vector2.mk 0 0) 1 ])%float /\
  (accumulate (1 / 10000) two_bodies =
     [ mkBody (Vector2.mk (-1) 0) (Vector2.mk 0 0) (Vector2.mk (1 / 4) 0) 1;
       mkBody (Vector2.mk 1 0) (Vector2.mk 0 0)
              (Vector2.mk (- (1 / 4)) 0) 1 ] /\
   Bounded.animate (1 / 100) (1 / 10000) two_bodies =
     [ mkBody (Vector2.mk (-1) 0) (Vector2.mk (1 / 400) 0) (Vector2.mk 0 0) 1;
       mkBody (Vector2.mk 1 0) (Vector2.mk (- (1 / 400)) 0)
              (Vector2.mk 0 0) 1 ])%R.
Proof.
  split; [vm_compute; repeat split; reflexivity|].
  split; [apply accumulate_example_real|apply animate_example_real].
Qed.

(** Two coincident bodies, on binary64 numbers: the divisor is [0.0001] and
    [tmp] is the zero vector. *)
Lemma coincident_bodies_binary64 :
  (let p := Vector2.mk 0.3 0.7 in
   divisor Bounded.min (sub p p) = 0.0001 /\
   force_dir Bounded.min p p = Vector2.mk 0 0)%float.
Proof. vm_compute. repeat split; reflexivity. Qed.

(** * Further properties of the two files *)

(** ** The accumulation pass, body by body *)

Section PassFacts.
Context `{Number K} `{!Vector K V}.

Lemma frame_lookup (l l' : list (Body V K)) k bk :
  frame <$> l' = frame <$> l -> l !! k = Some bk ->
  exists b', l' !! k = Some b' /\ pos b' = pos bk /\ vel b' = vel bk /\
             mass b' = mass bk.
Proof.
  intros Hf Hk.
  assert (Hl : (frame <$> l') !! k = Some (frame bk))
    by (rewrite Hf, list_lookup_fmap, Hk; reflexivity).
  rewrite list_lookup_fmap in Hl.
  destruct (l' !! k) as [b'|]; [|discriminate].
  injection Hl as Hp Hv Hm. eauto.
Qed.

Lemma progress_start min l : progress min l 0 0 l.
Proof.
  split; [reflexivity|]. intros k bk Hk. rewrite Hk. cbn.
  unfold progress_acc.
  destruct (decide (k < 0)); [lia|].
  destruct (decide (k = 0)) as [->|]; [reflexivity|].
  destruct (decide (k < 1 + 0)); [lia|]. reflexivity.
Qed.

Lemma progress_acc_second min l i J k a bi bk :
  l !! i = Some bi -> l !! k = Some bk -> k = S i + J ->
  progress_acc min l i (S J) k a =
  sub (progress_acc min l i J k a)
      (multiplyScalar (force_dir min (pos bi) (pos bk)) (mass bi)).
Proof.
  intros Hi Hk ->. unfold progress_acc.
  destruct (decide (S i + J < i)); [lia|].
  destruct (decide (S i + J = i)); [lia|].
  destruct (decide (S i + J < S i + J)); [lia|].
  destruct (decide (S i + J < S i + S J)); [|lia].
  rewrite seq_S, foldl_app. cbn [foldl]. change (0 + i) with i.
  unfold sub_step at 1. rewrite Hi, Hk. reflexivity.
Qed.

Lemma progress_acc_first min l i J a bi bj :
  l !! i = Some bi -> l !! (S i + J) = Some bj ->
  progress_acc min l i (S J) i a =
  add (progress_acc min l i J i a)
      (multiplyScalar (force_dir min (pos bi) (pos bj)) (mass bj)).
Proof.
  intros Hi Hj. unfold progress_acc.
  destruct (decide (i < i)); [lia|].
  destruct (decide (i = i)); [|lia].
  rewrite seq_S, foldl_app. cbn [foldl].
  unfold add_step at 1. rewrite Hi, Hj. reflexivity.
Qed.

Lemma progress_acc_other min l i J k a :
  k <> i -> k <> S i + J ->
  progress_acc min l i (S J) k a = progress_acc min l i J k a.
Proof.
  intros Hki Hkj. unfold progress_acc.
  destruct (decide (k < i)); [reflexivity|].
  destruct (decide (k = i)); [lia|].
  destruct (decide (k < S i + J)), (decide (k < S i + S J));
    try reflexivity; lia.
Qed.

Lemma progress_pair min l i J l' bi :
  l !! i = Some bi -> S i + J < length l ->
  progress min l i J l' ->
  progress min l i (S J) (pair_step min i (pos bi) (mass bi) l' (S i + J)).
Proof.
  intros Hi HJ [Hf Ha].
  destruct (lookup_lt_is_Some_2 l (S i + J) HJ) as [bj Hj].
  destruct (frame_lookup l l' _ _ Hf Hj) as (bj' & Hj' & Hpj & _ & Hmj).
  split; [rewrite frame_pair_step; exact Hf|].
  intros k bk Hk. unfold pair_step. rewrite Hj'. cbv zeta.
  rewrite Hpj, Hmj.
  pose proof (Ha k bk Hk) as Hak.
  destruct (decide (k = S i + J)) as [Hkj|Hkj].
  - rewrite (progress_acc_second min l i J k _ bi bk Hi Hk Hkj).
    subst k. rewrite list_lookup_alter_eq, list_lookup_alter_ne by lia.
    destruct (l' !! (S i + J)) as [b|]; [|discriminate].
    apply (inj Some) in Hak. cbn [fmap option_fmap option_map] in *.
    rewrite <- Hak. rewrite Hk in Hj. apply (inj Some) in Hj. subst bj.
    reflexivity.
  - rewrite list_lookup_alter_ne by lia.
    destruct (decide (k = i)) as [Hki|Hki].
    + subst k. rewrite Hi in Hk. apply (inj Some) in Hk. subst bk.
      rewrite (progress_acc_first min l i J _ bi bj Hi Hj).
      rewrite list_lookup_alter_eq.
      destruct (l' !! i) as [b|]; [|discriminate].
      cbn [fmap option_fmap option_map] in *. apply (inj Some) in Hak.
      rewrite <- Hak. reflexivity.
    + rewrite list_lookup_alter_ne by lia.
      rewrite progress_acc_other by assumption. exact Hak.
Qed.

Lemma progress_row min l i l' :
  i < length l -> progress min l i 0 l' ->
  progress min l i (length l - S i) (inner_loop min l' i).
Proof.
  intros Hi Hp.
  destruct (lookup_lt_is_Some_2 l i Hi) as [bi Hbi].
  destruct (frame_lookup l l' _ _ (proj1 Hp) Hbi)
    as (bi' & Hi' & Hpi & _ & Hmi).
  assert (Hlen : length l' = length l).
  { rewrite <- (length_fmap frame l'), (proj1 Hp). apply length_fmap. }
  unfold inner_loop. rewrite Hi'. cbv zeta. rewrite Hpi, Hmi, Hlen.
  assert (Hgen : forall J, J <= length l - S i ->
            progress min l i J
              (foldl (pair_step min i (pos bi) (mass bi)) l' (seq (S i) J))).
  { induction J as [|J IH]; intros HJ; [exact Hp|].
    rewrite seq_S, foldl_app. cbn [foldl].
    apply progress_pair; [exact Hbi|lia|apply IH; lia]. }
  apply Hgen. lia.
Qed.

Lemma progress_next min l i l' :
  progress min l i (length l - S i) l' -> progress min l (S i) 0 l'.
Proof.
  intros [Hf Ha]. split; [exact Hf|].
  intros k bk Hk. rewrite (Ha k bk Hk). f_equal.
  apply lookup_lt_Some in Hk.
  unfold progress_acc.
  destruct (decide (k < i)).
  - destruct (decide (k < S i)); [reflexivity|lia].
  - destruct (decide (k = i)) as [->|].
    + destruct (decide (i < S i)); [reflexivity|lia].
    + destruct (decide (k < S i + (length l - S i))); [|lia].
      destruct (decide (k < S i)); [lia|].
      destruct (decide (k = S i)) as [->|]; [reflexivity|].
      destruct (decide (k < S (S i) + 0)); [lia|reflexivity].
Qed.

Lemma progress_rows min l i :
  i <= length l -> progress min l i 0 (foldl (inner_loop min) l (seq 0 i)).
Proof.
  induction i as [|i IH]; intros Hi; [apply progress_start|].
  rewrite seq_S, foldl_app. cbn [foldl].
  apply progress_next, progress_row; [lia|apply IH; lia].
Qed.

Lemma accumulate_net_acceleration (min : K) (bodies : list (Body V K)) k bk :
  bodies !! k = Some bk ->
  accumulate min bodies !! k =
  Some (set_acc (acc_after min bodies k (acc bk)) bk).
Proof.
  intros Hk.
  destruct (progress_rows min bodies (length bodies) (le_n _)) as [Hf Ha].
  fold (accumulate min bodies) in *.
  destruct (frame_lookup _ _ _ _ Hf Hk) as (b' & Hb' & Hp & Hv & Hm).
  specialize (Ha k bk Hk). rewrite Hb' in *.
  cbn [fmap option_fmap option_map] in Ha. apply (inj Some) in Ha.
  apply lookup_lt_Some in Hk.
  unfold progress_acc in Ha. destruct (decide (k < _)); [|lia].
  f_equal. destruct b', bk. unfold set_acc. cbn in *. congruence.
Qed.

(** X1. The accumulation pass, read body by body, for any arithmetic: body
    [k] of the array leaves the pass with its position, velocity and mass,
    and with the acceleration [acc_after]: what it had, minus [tmp * mass_i]
    for every earlier body [i] in turn, then plus [tmp * mass_j] for every
    later body [j] in turn, which on binary64 numbers fixes the order of the
    roundings.  An index outside the array stays outside. *)
Theorem accumulate_per_body (min : K) (bodies : list (Body V K)) (k : nat) :
  accumulate min bodies !! k =
  (fun bk => set_acc (acc_after min bodies k (acc bk)) bk) <$> bodies !! k.
Proof.
  destruct (bodies !! k) as [bk|] eqn:Hk.
  - cbn. apply accumulate_net_acceleration. exact Hk.
  - cbn. apply lookup_ge_None. rewrite length_accumulate.
    apply lookup_ge_None. exact Hk.
Qed.
End PassFacts.

(** ** No net force, and what follows in the unbounded file *)

Lemma Rsum_alter {A} (g : A -> R) (f : A -> A) (l : list A) i b :
  l !! i = Some b ->
  Rsum (g <$> alter f i l) = (Rsum (g <$> l) + (g (f b) - g b))%R.
Proof.
  revert i. induction l as [|a l IH]; intros [|i] Hi; try discriminate.
  - injection Hi as ->. cbn. unfold Rsum. lra.
  - cbn in Hi. specialize (IH i Hi). cbn. unfold Rsum in *. cbn in IH.
    change (foldr Rplus 0%R (g <$> alter f i l))
      with (foldr Rplus 0%R (g <$> alter f i l)) in *.
    rewrite IH. lra.
Qed.

Lemma foldl_preserves_elem {A B} (P : A -> Prop) (f : A -> B -> A)
    (l : list B) :
  (forall a x, x ∈ l -> P a -> P (f a x)) -> forall a, P a -> P (foldl f a l).
Proof.
  induction l as [|x l IH]; intros Hf a Ha; [exact Ha|].
  cbn. apply IH.
  - intros a' y Hy. apply Hf. right. exact Hy.
  - apply Hf; [left|exact Ha].
Qed.

Section Momentum.
Context {V} `{!Vector R V}.
Variable phi : V -> R.
Hypothesis Hphi : linear phi.

Lemma total_pair_step min i j p1 (l : list (Body V R)) bi :
  i <> j -> l !! i = Some bi ->
  total_along phi acc (pair_step min i p1 (mass bi) l j) =
  total_along phi acc l.
Proof.
  destruct Hphi as (_ & Hadd & Hsub & Hmul).
  intros Hij Hi. unfold pair_step.
  destruct (l !! j) as [bj|] eqn:Hj; [|reflexivity]. cbv zeta.
  unfold total_along.
  rewrite (Rsum_alter _ _ _ j bj)
    by (rewrite list_lookup_alter_ne by auto; exact Hj).
  rewrite (Rsum_alter _ _ _ i bi) by exact Hi.
  unfold acc_add, acc_sub, set_acc. cbn [acc mass].
  rewrite Hadd, Hsub, !Hmul. lra.
Qed.

Lemma total_inner_loop min (l : list (Body V R)) i :
  total_along phi acc (inner_loop min l i) = total_along phi acc l.
Proof.
  unfold inner_loop. destruct (l !! i) as [bi|] eqn:Hi; [|reflexivity].
  cbv zeta.
  apply (foldl_preserves_elem
           (fun l' => total_along phi acc l' = total_along phi acc l /\
                      frame <$> l' = frame <$> l)); [|auto].
  intros l' j Hj [Ht Hf].
  apply elem_of_seq in Hj.
  destruct (frame_lookup l l' i bi Hf Hi) as (bi' & Hi' & _ & _ & Hm).
  split; [|rewrite frame_pair_step; exact Hf].
  rewrite <- Hm. rewrite (total_pair_step min i j _ l' bi') by (lia || auto).
  exact Ht.
Qed.

Lemma total_accumulate min (l : list (Body V R)) :
  total_along phi acc (accumulate min l) = total_along phi acc l.
Proof.
  unfold accumulate.
  apply (foldl_preserves
           (fun l' => total_along phi acc l' = total_along phi acc l));
    [|reflexivity].
  intros l' i Hl'. rewrite total_inner_loop. exact Hl'.
Qed.

Lemma total_frame (f : Body V R -> V) (g : V * V * R -> V)
    (l l' : list (Body V R)) :
  (forall b, f b = g (frame b)) ->
  frame <$> l' = frame <$> l ->
  total_along phi f l' = total_along phi f l.
Proof.
  intros Hfg Hf. unfold total_along.
  assert (Hc : forall l0 : list (Body V R),
            (fun b => phi (f b) * mass b)%R <$> l0 =
            (fun t : V * V * R => phi (g t) * t.2)%R <$> (frame <$> l0)).
  { intros l0. rewrite <- list_fmap_compose. apply list_fmap_ext.
    intros k b _. cbn. rewrite Hfg. reflexivity. }
  rewrite !Hc, Hf. reflexivity.
Qed.

Lemma total_acc_zero (l : list (Body V R)) :
  Forall (fun b => acc b = vzero) l -> total_along phi acc l = 0%R.
Proof.
  destruct Hphi as (H0 & _).
  induction 1 as [|b l Hb _ IH]; [reflexivity|].
  unfold total_along in *. cbn. unfold Rsum in *. cbn.
  rewrite Hb, H0.
  change (foldr Rplus 0%R (list_fmap _ _ (fun b => phi (acc b) * mass b)%R l))
    with (foldr Rplus 0%R ((fun b => phi (acc b) * mass b)%R <$> l)).
  rewrite IH. lra.
Qed.

Lemma total_cons (f : Body V R -> V) b (l : list (Body V R)) :
  total_along phi f (b :: l) = (phi (f b) * mass b + total_along phi f l)%R.
Proof. reflexivity. Qed.

Lemma total_integrate dt (l : list (Body V R)) :
  total_along phi vel (integrate dt l) =
    (total_along phi vel l + dt * total_along phi acc l)%R /\
  total_along phi pos (integrate dt l) =
    (total_along phi pos l + dt * total_along phi vel l)%R.
Proof.
  destruct Hphi as (_ & Hadd & _ & Hmul).
  unfold integrate.
  induction l as [|b l [IH1 IH2]].
  - unfold total_along, Rsum. cbn. split; lra.
  - cbn [map]. rewrite !total_cons, IH1, IH2.
    unfold update, set_acc, set_vel, set_pos. cbn [pos vel acc mass].
    rewrite !Hadd, !Hmul. split; lra.
Qed.
End Momentum.

Section Totals.
Context {V} `{!Vector R V}.
Variable phi : V -> R.
Hypothesis Hphi : linear phi.

Lemma total_acc_accumulate_zero min (l : list (Body V R)) :
  Forall (fun b => acc b = vzero) l ->
  total_along phi acc (accumulate min l) = 0%R.
Proof.
  intros Hz. rewrite (total_accumulate phi Hphi).
  apply (total_acc_zero phi Hphi). exact Hz.
Qed.
End Totals.

(** X2. In exact arithmetic, with [min > 0] as in both files, the pass
    exerts no net force: along any linear map [phi] (each coordinate is
    one), the sum over the bodies of [mass * acc] is the same after the pass
    as before, and it is zero after a pass that started with all
    accelerations at zero.  This holds in two and in three dimensions. *)
Theorem accumulate_no_net_force {V} `{!Vector R V} (phi : V -> R) (min : R)
    (bodies : list (Body V R)) :
  linear phi -> (0 < min)%R ->
  total_along phi acc (accumulate min bodies) = total_along phi acc bodies /\
  (Forall (fun b => acc b = vzero) bodies ->
   total_along phi acc (accumulate min bodies) = 0%R).
Proof.
  intros Hphi _. split; [apply total_accumulate; exact Hphi|].
  apply total_acc_accumulate_zero. exact Hphi.
Qed.

Lemma unbounded_animate_totals (phi : Vector3.t R -> R) dt min
    (l : list (Body (Vector3.t R) R)) :
  linear phi -> Forall (fun b => acc b = vzero) l ->
  total_along phi vel (Unbounded.animate dt min l) = total_along phi vel l /\
  total_along phi pos (Unbounded.animate dt min l) =
    (total_along phi pos l + dt * total_along phi vel l)%R.
Proof.
  intros Hphi Hz. unfold Unbounded.animate.
  destruct (total_integrate phi Hphi dt (accumulate min l)) as [Hv Hp].
  rewrite Hv, Hp, (total_acc_accumulate_zero phi Hphi) by exact Hz.
  rewrite (total_frame phi vel (fun t => t.1.2) l (accumulate min l))
    by (reflexivity || apply frame_accumulate).
  rewrite (total_frame phi pos (fun t => t.1.1) l (accumulate min l))
    by (reflexivity || apply frame_accumulate).
  split; lra.
Qed.

Lemma unbounded_run_totals (phi : Vector3.t R -> R) dt min
    (l : list (Body (Vector3.t R) R)) k :
  linear phi -> Forall (fun b => acc b = vzero) l ->
  total_along phi vel (Unbounded.run dt min k l) = total_along phi vel l /\
  total_along phi pos (Unbounded.run dt min k l) =
    (total_along phi pos l + INR k * dt * total_along phi vel l)%R.
Proof.
  intros Hphi Hz. induction k as [|k [IHv IHp]].
  - change (Unbounded.run dt min 0 l) with l. change (INR 0) with 0%R.
    split; [reflexivity|lra].
  - assert (Hzk : Forall (fun b => acc b = vzero) (Unbounded.run dt min k l))
      by (apply Forall_acc_unbounded_run; exact Hz).
    destruct (unbounded_animate_totals phi dt min _ Hphi Hzk) as [Hv Hp].
    unfold Unbounded.run in *. rewrite Nat.iter_succ, Hv, Hp, IHv, IHp, S_INR.
    split; lra.
Qed.

(** X3. In exact arithmetic the unbounded file conserves the total momentum:
    from bodies whose accelerations are zero (as the constructor leaves
    them), after any number of frames the sum of [mass * velocity] along any
    linear map is the one of the start. *)
Theorem unbounded_run_conserves_momentum (phi : Vector3.t R -> R)
    (dt min : R) (bodies : list (Body (Vector3.t R) R)) (k : nat) :
  linear phi -> (0 < min)%R ->
  Forall (fun b => acc b = vzero) bodies ->
  total_along phi vel (Unbounded.run dt min k bodies) =
  total_along phi vel bodies.
Proof.
  intros Hphi _ Hz. apply unbounded_run_totals; assumption.
Qed.

(** X4. In exact arithmetic the mass-weighted position of the unbounded
    file moves uniformly: after [k] frames the sum of [mass * position]
    along any linear map is the one of the start plus [k * dt] times the
    total momentum of the start. *)
Theorem unbounded_run_centre_of_mass (phi : Vector3.t R -> R)
    (dt min : R) (bodies : list (Body (Vector3.t R) R)) (k : nat) :
  linear phi -> (0 < min)%R ->
  Forall (fun b => acc b = vzero) bodies ->
  total_along phi pos (Unbounded.run dt min k bodies) =
  (total_along phi pos bodies + INR k * dt * total_along phi vel bodies)%R.
Proof.
  intros Hphi _ Hz. apply unbounded_run_totals; assumption.
Qed.

(** ** The force law *)

Lemma floor_mag_cases (L : R) :
  ((1 <= L)%R -> floor_mag L = R_sqrt.sqrt L) /\
  ((L < 1)%R -> floor_mag L = 1%R).
Proof.
  unfold floor_mag. cbv zeta. cbn. split; intros HL.
  - rewrite bool_decide_eq_false_2; [reflexivity|].
    pose proof (sqrt_le_1_alt 1 L HL) as Hs. rewrite sqrt_1 in Hs. lra.
  - rewrite bool_decide_eq_true_2; [reflexivity|].
    destruct (Rle_dec 0 L) as [H0|H0].
    + pose proof (sqrt_lt_1_alt L 1 (conj H0 HL)) as Hs.
      rewrite sqrt_1 in Hs. exact Hs.
    + rewrite sqrt_neg_0 by lra. lra.
Qed.

Lemma divisor_cases {V} `{!Vector R V} (min : R) (r : V) :
  (0 < min <= 1)%R ->
  ((1 <= lengthSq r)%R ->
     divisor min r = (lengthSq r * R_sqrt.sqrt (lengthSq r))%R) /\
  ((min <= lengthSq r < 1)%R -> divisor min r = lengthSq r) /\
  ((lengthSq r < min)%R -> divisor min r = min).
Proof.
  intros Hmin. unfold divisor. cbv zeta.
  change (Math_max (lengthSq r) min * floor_mag (lengthSq r))%js
    with (Rmax (lengthSq r) min * floor_mag (lengthSq r))%R.
  destruct (floor_mag_cases (lengthSq r)) as [Hge Hlt].
  repeat split; intros HL.
  - rewrite Hge, Rmax_left by lra. reflexivity.
  - rewrite Hlt, Rmax_left by lra. lra.
  - rewrite Hlt, Rmax_right by lra. lra.
Qed.

(** X5. The three regimes of [tmp] in exact arithmetic, for [0 < min <= 1]
    and the squared distance [L] between the two bodies: from distance 1 on,
    the vector between them over the cube of the distance (the inverse
    square law); from [L = min] up to distance 1, the vector over [L]; below
    [L = min], the vector over [min]. *)
Theorem force_law_regimes {V} `{!Vector R V} (min : R) (p1 p2 : V) :
  (0 < min <= 1)%R ->
  let r := sub p2 p1 in
  let L := lengthSq r in
  ((1 <= L)%R ->
     force_dir min p1 p2 = multiplyScalar r (1 / (L * R_sqrt.sqrt L))%R) /\
  ((min <= L < 1)%R -> force_dir min p1 p2 = multiplyScalar r (1 / L)%R) /\
  ((L < min)%R -> force_dir min p1 p2 = multiplyScalar r (1 / min)%R).
Proof.
  intros Hmin r L.
  destruct (divisor_cases min r Hmin) as (H1 & H2 & H3).
  unfold force_dir, divideScalar. cbv zeta. fold r.
  repeat split; intros HL.
  - rewrite (H1 HL). reflexivity.
  - rewrite (H2 HL). reflexivity.
  - rewrite (H3 HL). reflexivity.
Qed.

Lemma square_bound (L D min : R) :
  (0 < min)%R -> (0 < D)%R -> (L * min <= D * D)%R ->
  (L * ((1 / D) * (1 / D)) <= 1 / min)%R.
Proof.
  intros Hmin HD HL.
  assert (He : (1 / min - L * (1 / D * (1 / D)) =
                (D * D - L * min) * / (D * D * min))%R) by (field; lra).
  assert (Hp : (0 <= (D * D - L * min) * / (D * D * min))%R).
  { apply Rmult_le_pos; [lra|]. left. apply Rinv_0_lt_compat.
    repeat apply Rmult_lt_0_compat; assumption. }
  lra.
Qed.

Lemma divisor_square (L : R) (min : R) D :
  (0 < min <= 1)%R -> (0 <= L)%R ->
  D = (Rmax L min * floor_mag L)%R -> (0 < D)%R /\ (L * min <= D * D)%R.
Proof.
  intros Hmin HL ->.
  destruct (floor_mag_cases L) as [Hge Hlt].
  destruct (Rle_dec 1 L) as [H1|H1].
  - rewrite Hge, Rmax_left by lra.
    pose proof (sqrt_sqrt L HL) as Hs.
    pose proof (sqrt_le_1_alt 1 L H1) as Hs1. rewrite sqrt_1 in Hs1.
    set (s := R_sqrt.sqrt L) in *. split; [nra|].
    replace (L * s * (L * s))%R with (L * L * (s * s))%R by ring.
    rewrite Hs. nra.
  - rewrite Hlt by lra. destruct (Rle_dec min L) as [H2|H2].
    + rewrite Rmax_left by lra. split; [lra|nra].
    + rewrite Rmax_right by lra. split; [lra|nra].
Qed.

(** X6. In exact arithmetic, for [0 < min <= 1], the squared length of
    [tmp] is at most [1 / min] whatever the two positions, in two and in
    three dimensions: with [min = 0.0001] the pull of a body of mass [m] on
    another is never longer than [100 * m]. *)
Theorem force_bounded (min : R) :
  (0 < min <= 1)%R ->
  (forall p1 p2 : Vector2.t R,
     (lengthSq (force_dir min p1 p2) <= 1 / min)%R) /\
  (forall p1 p2 : Vector3.t R,
     (lengthSq (force_dir min p1 p2) <= 1 / min)%R).
Proof.
  intros Hmin. split; intros p1 p2.
  - unfold force_dir, divideScalar. cbv zeta.
    set (r := sub p2 p1). set (D := divisor min r).
    assert (HL : (0 <= lengthSq r)%R).
    { destruct r as [x y]. cbn. unfold Vector2.lengthSq. cbn. nra. }
    destruct (divisor_square (lengthSq r) min D Hmin HL eq_refl) as [HD HB].
    pose proof (square_bound _ _ _ (proj1 Hmin) HD HB) as Hb.
    replace (lengthSq (multiplyScalar r (#1 / D)%js))
      with (lengthSq r * (1 / D * (1 / D)))%R; [exact Hb|].
    destruct r as [x y]. cbn. unfold Vector2.lengthSq. cbn. ring.
  - unfold force_dir, divideScalar. cbv zeta.
    set (r := sub p2 p1). set (D := divisor min r).
    assert (HL : (0 <= lengthSq r)%R).
    { destruct r as [x y z]. cbn. unfold Vector3.lengthSq. cbn. nra. }
    destruct (divisor_square (lengthSq r) min D Hmin HL eq_refl) as [HD HB].
    pose proof (square_bound _ _ _ (proj1 Hmin) HD HB) as Hb.
    replace (lengthSq (multiplyScalar r (#1 / D)%js))
      with (lengthSq r * (1 / D * (1 / D)))%R; [exact Hb|].
    destruct r as [x y z]. cbn. unfold Vector3.lengthSq. cbn. ring.
Qed.

Lemma lengthSq_sub_sym2 (p q : Vector2.t R) :
  lengthSq (sub p q) = lengthSq (sub q p).
Proof. destruct p, q. cbn. unfold Vector2.lengthSq. cbn. ring. Qed.

Lemma lengthSq_sub_sym3 (p q : Vector3.t R) :
  lengthSq (sub p q) = lengthSq (sub q p).
Proof. destruct p, q. cbn. unfold Vector3.lengthSq. cbn. ring. Qed.

Lemma force_dir_swap2 (min : R) (p q : Vector2.t R) :
  force_dir min q p = multiplyScalar (force_dir min p q) (-1)%R.
Proof.
  unfold force_dir, divideScalar, divisor. cbv zeta.
  rewrite (lengthSq_sub_sym2 p q).
  generalize (Math_max (lengthSq (sub q p)) min *
              floor_mag (lengthSq (sub q p)))%js.
  intros D. destruct p, q. cbn.
  unfold Vector2.multiplyScalar, Vector2.sub. cbn. f_equal; ring.
Qed.

Lemma force_dir_swap3 (min : R) (p q : Vector3.t R) :
  force_dir min q p = multiplyScalar (force_dir min p q) (-1)%R.
Proof.
  unfold force_dir, divideScalar, divisor. cbv zeta.
  rewrite (lengthSq_sub_sym3 p q).
  generalize (Math_max (lengthSq (sub q p)) min *
              floor_mag (lengthSq (sub q p)))%js.
  intros D. destruct p, q. cbn.
  unfold Vector3.multiplyScalar, Vector3.sub. cbn. f_equal; ring.
Qed.

(** X7. In exact arithmetic, with [min > 0]: swapping the two bodies turns
    [tmp] into its opposite, and two bodies at the same position give the
    zero vector, in two and in three dimensions. *)
Theorem force_antisymmetric (min : R) :
  (0 < min)%R ->
  (forall p q : Vector2.t R,
     force_dir min q p = multiplyScalar (force_dir min p q) (-1)%R /\
     force_dir min p p = vzero) /\
  (forall p q : Vector3.t R,
     force_dir min q p = multiplyScalar (force_dir min p q) (-1)%R /\
     force_dir min p p = vzero).
Proof.
  intros _. split; intros p q; split.
  - apply force_dir_swap2.
  - unfold force_dir, divideScalar. cbv zeta.
    generalize (divisor min (sub p p)). intros D. destruct p. cbn.
    unfold Vector2.multiplyScalar, Vector2.sub. cbn. f_equal; ring.
  - apply force_dir_swap3.
  - unfold force_dir, divideScalar. cbv zeta.
    generalize (divisor min (sub p p)). intros D. destruct p. cbn.
    unfold Vector3.multiplyScalar, Vector3.sub. cbn. f_equal; ring.
Qed.


Lemma Rsum_app (l1 l2 : list R) : Rsum (l1 ++ l2) = (Rsum l1 + Rsum l2)%R.
Proof.
  induction l1 as [|x l1 IH]; cbn; [unfold Rsum; cbn; lra|].
  unfold Rsum in *. cbn. rewrite IH. lra.
Qed.

Section NetPull.
Context {V} `{!Vector R V}.
Variables (phi : V -> R) (min : R).
Hypothesis Hphi : linear phi.
Hypothesis Hswap : forall p q : V,
  force_dir min q p = multiplyScalar (force_dir min p q) (-1)%R.

Lemma phi_sub_steps (l : list (Body V R)) k js a :
  (forall j, j ∈ js -> j <> k) ->
  phi (foldl (sub_step min l k) a js) =
  (phi a + Rsum (pull_term phi min l k <$> js))%R.
Proof.
  destruct Hphi as (_ & _ & Hsub & Hmul).
  revert a. induction js as [|j js IH]; intros a Hjs.
  - unfold Rsum. cbn. lra.
  - cbn [foldl fmap list_fmap]. rewrite IH by (intros; apply Hjs; right; auto).
    change (Rsum (pull_term phi min l k j :: (pull_term phi min l k <$> js)))
      with (pull_term phi min l k j + Rsum (pull_term phi min l k <$> js))%R.
    assert (Hj : j <> k) by (apply Hjs; left).
    unfold sub_step, pull_term.
    destruct (l !! j) as [bj|], (l !! k) as [bk|]; try lra.
    destruct (decide (j = k)); [contradiction|].
    rewrite Hsub, Hmul, (Hswap (pos bk) (pos bj)), Hmul. lra.
Qed.

Lemma phi_add_steps (l : list (Body V R)) k js a :
  (forall j, j ∈ js -> j <> k) ->
  phi (foldl (add_step min l k) a js) =
  (phi a + Rsum (pull_term phi min l k <$> js))%R.
Proof.
  destruct Hphi as (_ & Hadd & _ & Hmul).
  revert a. induction js as [|j js IH]; intros a Hjs.
  - unfold Rsum. cbn. lra.
  - cbn [foldl fmap list_fmap]. rewrite IH by (intros; apply Hjs; right; auto).
    change (Rsum (pull_term phi min l k j :: (pull_term phi min l k <$> js)))
      with (pull_term phi min l k j + Rsum (pull_term phi min l k <$> js))%R.
    assert (Hj : j <> k) by (apply Hjs; left).
    unfold add_step, pull_term.
    destruct (l !! k) as [bk|], (l !! j) as [bj|]; try lra.
    destruct (decide (j = k)); [contradiction|].
    rewrite Hadd, Hmul. lra.
Qed.

Lemma phi_acc_after (l : list (Body V R)) k a :
  k < length l ->
  phi (acc_after min l k a) = (phi a + net_pull phi min l k)%R.
Proof.
  intros Hk. unfold acc_after, net_pull.
  rewrite phi_add_steps
    by (intros j Hj; apply elem_of_seq in Hj; lia).
  rewrite phi_sub_steps
    by (intros j Hj; apply elem_of_seq in Hj; lia).
  replace (length l) with (k + (1 + (length l - S k))) at 2 by lia.
  rewrite !seq_app, !fmap_app, !Rsum_app.
  change (0 + k) with k. replace (k + 1) with (S k) by lia.
  assert (Hkk : Rsum (pull_term phi min l k <$> seq k 1) = 0%R).
  { cbn. unfold Rsum. cbn. unfold pull_term.
    destruct (l !! k); [|lra].
    destruct (decide (k = k)); [lra|contradiction]. }
  rewrite Hkk. lra.
Qed.
End NetPull.

Lemma linear_x2 : linear (@Vector2.x R).
Proof. repeat split; intros; destruct a; try destruct b; reflexivity. Qed.
Lemma linear_y2 : linear (@Vector2.y R).
Proof. repeat split; intros; destruct a; try destruct b; reflexivity. Qed.
Lemma linear_x3 : linear (@Vector3.x R).
Proof. repeat split; intros; destruct a; try destruct b; reflexivity. Qed.
Lemma linear_y3 : linear (@Vector3.y R).
Proof. repeat split; intros; destruct a; try destruct b; reflexivity. Qed.
Lemma linear_z3 : linear (@Vector3.z R).
Proof. repeat split; intros; destruct a; try destruct b; reflexivity. Qed.

(** X8. In exact arithmetic, with [min > 0]: the pass adds to the
    acceleration of body [k], along any linear map, the sum over all the
    other bodies [j] of [mass_j] times the vector [tmp] from [k] to [j]; in
    two and in three dimensions. *)
Theorem accumulate_sums_pulls (min : R) :
  (0 < min)%R ->
  (forall (phi : Vector2.t R -> R) (bodies : list (Body (Vector2.t R) R)) k bk,
     linear phi -> bodies !! k = Some bk ->
     exists bk', accumulate min bodies !! k = Some bk' /\
       phi (acc bk') = (phi (acc bk) + net_pull phi min bodies k)%R) /\
  (forall (phi : Vector3.t R -> R) (bodies : list (Body (Vector3.t R) R)) k bk,
     linear phi -> bodies !! k = Some bk ->
     exists bk', accumulate min bodies !! k = Some bk' /\
       phi (acc bk') = (phi (acc bk) + net_pull phi min bodies k)%R).
Proof.
  intros _. split; intros phi bodies k bk Hphi Hk;
    (eexists; split; [apply accumulate_net_acceleration; exact Hk|]);
    cbn [acc set_acc]; apply phi_acc_after;
    [exact Hphi|apply force_dir_swap2|eapply lookup_lt_Some; exact Hk
    |exact Hphi|apply force_dir_swap3|eapply lookup_lt_Some; exact Hk].
Qed.

(** ** The walls *)

(** X9. In exact arithmetic the boundary tests keep the speed of a body
    (the squared length of its velocity), and made twice on a body that has
    not moved they give its velocity back: a body still outside the box on
    the next frame is turned round again. *)
Theorem reflect_elastic (b : Body (Vector2.t R) R) :
  lengthSq (vel (Bounded.reflect b)) = lengthSq (vel b) /\
  Bounded.reflect (Bounded.reflect b) = b.
Proof.
  destruct b as [[px py] [vx vy] a m].
  unfold Bounded.reflect. cbv zeta. cbn [pos vel set_vel Vector2.x Vector2.y].
  destruct (Bounded.outside px) eqn:Hx;
    cbn [pos vel set_vel Vector2.x Vector2.y];
    destruct (Bounded.outside py) eqn:Hy;
    cbn [pos vel set_vel Vector2.x Vector2.y acc mass];
    rewrite ?Hx, ?Hy; cbn [pos vel set_vel Vector2.x Vector2.y acc mass];
    rewrite ?Hx, ?Hy; cbn [pos vel set_vel Vector2.x Vector2.y acc mass];
    (split; [cbn; unfold Vector2.lengthSq; cbn; ring|]);
    unfold set_vel; cbn; repeat f_equal; ring.
Qed.

(** ** The initial state *)

Lemma sqrt_of_square (a r : R) :
  (0 <= r)%R -> a = (r * r)%R -> R_sqrt.sqrt a = r.
Proof. intros Hr ->. apply sqrt_square. exact Hr. Qed.

Lemma randDisc_length (d : Bounded.Draw R) :
  drawn_in_disc d ->
  Vector2.length (Bounded.randDisc d) = Bounded.radius d.
Proof.
  intros [Hu Hr]. unfold Vector2.length, Bounded.randDisc. cbn.
  apply sqrt_of_square; [lra|]. unfold unit_circle in Hu.
  replace (Bounded.cos_theta d * Bounded.radius d *
           (Bounded.cos_theta d * Bounded.radius d) +
           Bounded.sin_theta d * Bounded.radius d *
           (Bounded.sin_theta d * Bounded.radius d))%R
    with ((Bounded.cos_theta d * Bounded.cos_theta d +
           Bounded.sin_theta d * Bounded.sin_theta d) *
          (Bounded.radius d * Bounded.radius d))%R by ring.
  rewrite Hu. ring.
Qed.

Lemma length_scale2 (p : Vector2.t R) (c : R) :
  (0 <= c)%R ->
  Vector2.length (multiplyScalar p c) = (Vector2.length p * c)%R.
Proof.
  intros Hc. destruct p as [x y]. unfold Vector2.length. cbn.
  unfold Vector2.multiplyScalar. cbn.
  replace (x * c * (x * c) + y * c * (y * c))%R
    with ((x * x + y * y) * (c * c))%R by ring.
  rewrite sqrt_mult_alt by nra. rewrite (sqrt_square c Hc). reflexivity.
Qed.

(** X10. In exact arithmetic, when every draw of [randDisc] is an angle
    and a radius in [[0, 1)]: the creation loop of the bounded file makes
    [n] bodies, each at a distance below 1 from the origin and with a speed
    below 0.002. *)
Theorem sampled_bodies_in_disc (mass : R) (n : nat)
    (draws : nat -> Bounded.Draw R * Bounded.Draw R) :
  (forall i, i < n ->
     drawn_in_disc (fst (draws i)) /\ drawn_in_disc (snd (draws i))) ->
  length (Bounded.create mass n draws) = n /\
  Forall (fun b => (Vector2.length (pos b) < 1)%R /\
                   (Vector2.length (vel b) < 2 / 1000)%R)
         (Bounded.create mass n draws).
Proof.
  intros Hd. split.
  { unfold Bounded.create. rewrite length_map, length_seq. reflexivity. }
  unfold Bounded.create. apply Forall_fmap, Forall_forall.
  intros i Hi. apply elem_of_seq in Hi.
  destruct (Hd i ltac:(lia)) as [Hp Hv].
  unfold compose, new_Body. cbv beta zeta. cbn [pos vel].
  split.
  - rewrite randDisc_length by exact Hp. destruct Hp as [_ Hr]. lra.
  - assert (Hdec : @decimal R _ 2 3 = (2 / 1000)%R).
    { unfold decimal. change (10 ^ Z.of_nat 3)%Z with 1000%Z. reflexivity. }
    rewrite Hdec, length_scale2 by lra.
    rewrite randDisc_length by exact Hv. destruct Hv as [_ Hr]. lra.
Qed.

Lemma randSphere_lengthSq (d : Unbounded.Draw R) :
  drawn_in_ball d ->
  lengthSq (Unbounded.randSphere d) =
  (Unbounded.radius d * Unbounded.radius d)%R.
Proof.
  intros (Ht & Hp & Hr). unfold Unbounded.randSphere. cbn.
  unfold Vector3.lengthSq. cbn. unfold unit_circle in *.
  set (ct := Unbounded.cos_theta d) in *.
  set (st := Unbounded.sin_theta d) in *.
  set (cp := Unbounded.cos_phi d) in *. set (sp := Unbounded.sin_phi d) in *.
  set (r := Unbounded.radius d) in *.
  replace (sp * ct * r * (sp * ct * r) + sp * st * r * (sp * st * r) +
           cp * r * (cp * r))%R
    with ((sp * sp * (ct * ct + st * st) + cp * cp) * (r * r))%R by ring.
  rewrite Ht.
  replace (sp * sp * 1 + cp * cp)%R with (cp * cp + sp * sp)%R by ring.
  rewrite Hp. ring.
Qed.

(** X11. In exact arithmetic, when every draw of [randSphere] is two
    angles and a radius in [[0, 1)]: the creation loop of the unbounded file
    makes [n] bodies, each at a squared distance below 1 from the origin and
    with a squared speed below [0.02 * 0.02]. *)
Theorem sampled_bodies_in_ball (mass : R) (n : nat)
    (draws : nat -> Unbounded.Draw R * Unbounded.Draw R) :
  (forall i, i < n ->
     drawn_in_ball (fst (draws i)) /\ drawn_in_ball (snd (draws i))) ->
  length (Unbounded.create mass n draws) = n /\
  Forall (fun b => (lengthSq (pos b) < 1)%R /\
                   (lengthSq (vel b) < (2 / 100) * (2 / 100))%R)
         (Unbounded.create mass n draws).
Proof.
  intros Hd. split.
  { unfold Unbounded.create. rewrite length_map, length_seq. reflexivity. }
  unfold Unbounded.create. apply Forall_fmap, Forall_forall.
  intros i Hi. apply elem_of_seq in Hi.
  destruct (Hd i ltac:(lia)) as [Hp Hv].
  unfold compose, new_Body. cbv beta zeta. cbn [pos vel].
  split.
  - rewrite randSphere_lengthSq by exact Hp. destruct Hp as (_ & _ & Hr). nra.
  - assert (Hdec : @decimal R _ 2 2 = (2 / 100)%R).
    { unfold decimal. change (10 ^ Z.of_nat 2)%Z with 100%Z. reflexivity. }
    rewrite Hdec.
    assert (Hs : forall (p : Vector3.t R) c,
              lengthSq (multiplyScalar p c) = (lengthSq p * (c * c))%R).
    { intros [x y z] c. cbn. unfold Vector3.lengthSq. cbn. ring. }
    rewrite Hs, randSphere_lengthSq by exact Hv.
    destruct Hv as (_ & _ & Hr). nra.
Qed.

Lemma foldl_Rmax_scale (c a : R) (ls : list R) :
  (0 <= c)%R ->
  foldl Rmax (a * c)%R ((fun x => x * c)%R <$> ls) = (foldl Rmax a ls * c)%R.
Proof.
  intros Hc. revert a. induction ls as [|x ls IH]; intros a; [reflexivity|].
  cbn [fmap list_fmap foldl]. rewrite <- IH. f_equal.
  rewrite !(Rmult_comm _ c). apply RmaxRmult. exact Hc.
Qed.

Lemma foldl_Rmax_ge (a : R) (ls : list R) :
  (a <= foldl Rmax a ls)%R /\ Forall (fun x => (x <= foldl Rmax a ls)%R) ls.
Proof.
  revert a. induction ls as [|x ls IH]; intros a; cbn [foldl].
  - split; [lra|constructor].
  - destruct (IH (Rmax a x)) as [H1 H2].
    pose proof (Rmax_l a x). pose proof (Rmax_r a x).
    split; [lra|]. constructor; [lra|exact H2].
Qed.

Lemma length2_nonneg (p : Vector2.t R) : (0 <= Vector2.length p)%R.
Proof. unfold Vector2.length. apply sqrt_pos. Qed.

Lemma length2_inside (p : Vector2.t R) :
  (Vector2.length p <= 1)%R -> inside p.
Proof.
  intros Hl. pose proof (length2_nonneg p) as H0.
  destruct p as [x y]. unfold Vector2.length, inside in *. cbn in *.
  assert (Hs : (R_sqrt.sqrt (x * x + y * y) * R_sqrt.sqrt (x * x + y * y) =
                x * x + y * y)%R) by (apply sqrt_sqrt; nra).
  set (s := R_sqrt.sqrt (x * x + y * y)) in *.
  split; nra.
Qed.

(** X12. In exact arithmetic, when the largest distance [maxRadius] of a
    body to the origin is positive: after the division of the positions by
    [maxRadius] the largest distance is 1, every body is within distance 1
    of the origin and so strictly inside the walls, and velocities and
    masses are as before. *)
Theorem rescaling_fits_unit_disc (bodies : list (Body (Vector2.t R) R)) M :
  Bounded.max_radius bodies = Some M -> (0 < M)%R ->
  Bounded.max_radius (Bounded.rescaling bodies) = Some 1%R /\
  Forall (fun b => (Vector2.length (pos b) <= 1)%R /\ inside (pos b))
         (Bounded.rescaling bodies) /\
  vel <$> Bounded.rescaling bodies = vel <$> bodies /\
  mass <$> Bounded.rescaling bodies = mass <$> bodies.
Proof.
  intros HM Hpos. unfold Bounded.rescaling. rewrite HM.
  set (g := fun body : Body (Vector2.t R) R =>
              set_pos (divideScalar (pos body) M) body).
  assert (Hc : (0 <= 1 / M)%R).
  { apply Rlt_le. unfold Rdiv. rewrite Rmult_1_l.
    apply Rinv_0_lt_compat, Hpos. }
  assert (Hg : forall b, Vector2.length (pos (g b)) =
                         (Vector2.length (pos b) * (1 / M))%R).
  { intros b. unfold g, divideScalar. cbn [pos set_pos].
    apply length_scale2. exact Hc. }
  assert (Hmap : (fun body => Vector2.length (pos body)) <$> (g <$> bodies) =
                 (fun x => x * (1 / M))%R <$>
                   ((fun body => Vector2.length (pos body)) <$> bodies)).
  { rewrite <- !list_fmap_compose. apply list_fmap_ext. intros i b _.
    cbn. apply Hg. }
  unfold Bounded.max_radius in HM.
  change (map ?f ?l) with (f <$> l) in *.
  destruct ((fun body => Vector2.length (pos body)) <$> bodies)
    as [|l0 ls] eqn:El; [discriminate|].
  injection HM as HM.
  destruct (foldl_Rmax_ge l0 ls) as [Hl0 Hls]. rewrite HM in Hl0, Hls.
  split; [|split; [|split]].
  - unfold Bounded.max_radius. change (map ?f ?l) with (f <$> l).
    rewrite Hmap. cbn [fmap list_fmap]. f_equal.
    change (list_fmap R R ?f ls) with (f <$> ls).
    rewrite foldl_Rmax_scale by exact Hc. rewrite HM. field. lra.
  - assert (Hall : Forall (fun x => (x <= M)%R)
                     ((fun body => Vector2.length (pos body)) <$> bodies)).
    { rewrite El. constructor; assumption. }
    apply Forall_fmap in Hall. apply Forall_fmap.
    eapply Forall_impl; [exact Hall|]. intros b Hb. cbn in Hb |- *.
    assert (Hle : (Vector2.length (pos (g b)) <= 1)%R).
    { rewrite Hg. apply (Rmult_le_compat_r (1 / M)) in Hb; [|exact Hc].
      replace (M * (1 / M))%R with 1%R in Hb by (field; lra). exact Hb. }
    split; [exact Hle|apply length2_inside; exact Hle].
  - rewrite <- list_fmap_compose. reflexivity.
  - rewrite <- list_fmap_compose. reflexivity.
Qed.

(** ** The bodies of a run *)

Section RunFrame.
Context `{Number K}.

Lemma mass_accumulate {V} `{!Vector K V} min (l : list (Body V K)) :
  mass <$> accumulate min l = mass <$> l.
Proof.
  change (@mass V K) with ((fun t : V * V * K => t.2) ∘ frame).
  rewrite !list_fmap_compose, frame_accumulate. reflexivity.
Qed.

Lemma mass_bounded_animate dt min (l : list (Body (Vector2.t K) K)) :
  mass <$> Bounded.animate dt min l = mass <$> l.
Proof.
  unfold Bounded.animate. change (map ?f ?l) with (f <$> l).
  rewrite <- list_fmap_compose, <- (mass_accumulate min l).
  apply list_fmap_ext. intros i b _. cbn. rewrite mass_reflect. reflexivity.
Qed.

Lemma mass_unbounded_animate dt min (l : list (Body (Vector3.t K) K)) :
  mass <$> Unbounded.animate dt min l = mass <$> l.
Proof.
  unfold Unbounded.animate, integrate. change (map ?f ?l) with (f <$> l).
  rewrite <- list_fmap_compose, <- (mass_accumulate min l).
  reflexivity.
Qed.

(** X13. For any arithmetic and in both files, a run of any number of
    frames keeps the number of bodies and, index by index, their masses. *)
Theorem run_keeps_bodies_and_masses (dt min : K) (k : nat) :
  (forall l : list (Body (Vector2.t K) K),
     length (Bounded.run dt min k l) = length l /\
     mass <$> Bounded.run dt min k l = mass <$> l) /\
  (forall l : list (Body (Vector3.t K) K),
     length (Unbounded.run dt min k l) = length l /\
     mass <$> Unbounded.run dt min k l = mass <$> l).
Proof.
  split; intros l.
  - assert (Hm : mass <$> Bounded.run dt min k l = mass <$> l).
    { induction k as [|k IH]; [reflexivity|].
      unfold Bounded.run in *. rewrite Nat.iter_succ, mass_bounded_animate.
      exact IH. }
    split; [|exact Hm].
    rewrite <- (length_fmap mass (Bounded.run dt min k l)), Hm.
    apply length_fmap.
  - assert (Hm : mass <$> Unbounded.run dt min k l = mass <$> l).
    { induction k as [|k IH]; [reflexivity|].
      unfold Unbounded.run in *. rewrite Nat.iter_succ, mass_unbounded_animate.
      exact IH. }
    split; [|exact Hm].
    rewrite <- (length_fmap mass (Unbounded.run dt min k l)), Hm.
    apply length_fmap.
Qed.
End RunFrame.

Lemma free_frame_totals {V} `{!Vector R V} (phi : V -> R) dt min
    (l : list (Body V R)) :
  linear phi -> Forall (fun b => acc b = vzero) l ->
  total_along phi vel (integrate dt (accumulate min l)) =
    total_along phi vel l.
Proof.
  intros Hphi Hz.
  destruct (total_integrate phi Hphi dt (accumulate min l)) as [Hv _].
  rewrite Hv, (total_acc_accumulate_zero phi Hphi) by exact Hz.
  rewrite (total_frame phi vel (fun t => t.1.2) l (accumulate min l))
    by (reflexivity || apply frame_accumulate).
  lra.
Qed.

Lemma animate_inside dt min (l : list (Body (Vector2.t R) R)) :
  Forall (fun b => inside (pos b)) (integrate dt (accumulate min l)) ->
  Bounded.animate dt min l = integrate dt (accumulate min l).
Proof.
  unfold Bounded.animate, integrate.
  generalize (accumulate min l). intros l'.
  induction l' as [|b l' IH]; intros Hin; [reflexivity|].
  cbn [map] in *. apply Forall_cons in Hin. destruct Hin as [Hb Hl].
  rewrite reflect_inside by exact Hb. rewrite IH by exact Hl. reflexivity.
Qed.

(** X16. In exact arithmetic, with [min > 0]: a frame of the bounded file
    after which every body is strictly inside the walls is the accumulation
    pass followed by the updates, the boundary tests changing nothing; from
    accelerations at zero it conserves the sum of [mass * velocity] along
    any linear map. *)
Theorem bounded_frame_away_from_walls (phi : Vector2.t R -> R) (dt min : R)
    (bodies : list (Body (Vector2.t R) R)) :
  linear phi -> (0 < min)%R ->
  Forall (fun b => acc b = vzero) bodies ->
  Forall (fun b => inside (pos b)) (integrate dt (accumulate min bodies)) ->
  Bounded.animate dt min bodies = integrate dt (accumulate min bodies) /\
  total_along phi vel (Bounded.animate dt min bodies) =
  total_along phi vel bodies.
Proof.
  intros Hphi _ Hz Hin.
  rewrite (animate_inside dt min bodies Hin). split; [reflexivity|].
  apply free_frame_totals; assumption.
Qed.


(** ** The theorems above at inputs *)

Lemma accumulate_sums_pulls_witness :
  (0 < 1 / 10000)%R /\
  exists bk', accumulate (1 / 10000)%R (@two_bodies R _) !! 0 = Some bk' /\
    Vector2.x (acc bk') =
    (Vector2.x (acc (new_Body (Vector2.mk (-1) 0) (Vector2.mk 0 0) 1))
     + net_pull Vector2.x (1 / 10000) two_bodies 0)%R.
Proof.
  assert (Hmin : (0 < 1 / 10000)%R) by lra.
  split; [exact Hmin|].
  apply (proj1 (accumulate_sums_pulls (1 / 10000)%R Hmin) Vector2.x
           two_bodies 0 _ linear_x2).
  reflexivity.
Defined.

Lemma accumulate_no_net_force_witness :
  linear (@Vector2.x R) /\ (0 < 1 / 10000)%R /\
  total_along Vector2.x acc (accumulate (1 / 10000)%R two_bodies) =
  total_along Vector2.x acc two_bodies.
Proof.
  assert (Hmin : (0 < 1 / 10000)%R) by lra.
  split; [exact linear_x2|]. split; [exact Hmin|].
  exact (proj1 (accumulate_no_net_force Vector2.x (1 / 10000)%R two_bodies
                  linear_x2 Hmin)).
Defined.

Lemma two_bodies_3d_at_rest :
  Forall (fun b : Body (Vector3.t R) R => acc b = vzero) two_bodies_3d.
Proof. repeat constructor. Qed.

Lemma unbounded_run_conserves_momentum_witness :
  Forall (fun b : Body (Vector3.t R) R => acc b = vzero) two_bodies_3d /\
  total_along Vector3.z vel
    (Unbounded.run (1 / 100)%R (1 / 10000)%R 7 two_bodies_3d) =
  total_along Vector3.z vel two_bodies_3d.
Proof.
  split; [exact two_bodies_3d_at_rest|].
  apply (unbounded_run_conserves_momentum Vector3.z (1 / 100)%R
           (1 / 10000)%R two_bodies_3d 7 linear_z3);
    [lra|exact two_bodies_3d_at_rest].
Defined.

Lemma unbounded_run_centre_of_mass_witness :
  Forall (fun b : Body (Vector3.t R) R => acc b = vzero) two_bodies_3d /\
  total_along Vector3.x pos
    (Unbounded.run (1 / 100)%R (1 / 10000)%R 7 two_bodies_3d) =
  (total_along Vector3.x pos two_bodies_3d +
   INR 7 * (1 / 100) * total_along Vector3.x vel two_bodies_3d)%R.
Proof.
  split; [exact two_bodies_3d_at_rest|].
  apply (unbounded_run_centre_of_mass Vector3.x (1 / 100)%R
           (1 / 10000)%R two_bodies_3d 7 linear_x3);
    [lra|exact two_bodies_3d_at_rest].
Defined.

Lemma force_law_regimes_witness :
  (0 < 1 / 10000 <= 1)%R /\
  force_dir (1 / 10000)%R (Vector2.mk 0 0)%R (Vector2.mk (1 / 2) 0)%R =
  multiplyScalar (sub (Vector2.mk (1 / 2) 0) (Vector2.mk 0 0))%R
                 (1 / lengthSq (sub (Vector2.mk (1 / 2) 0)
                                    (Vector2.mk 0 0)))%R.
Proof.
  assert (Hmin : (0 < 1 / 10000 <= 1)%R) by lra.
  split; [exact Hmin|].
  apply (proj1 (proj2 (force_law_regimes (1 / 10000)%R (Vector2.mk 0 0)%R
                         (Vector2.mk (1 / 2) 0)%R Hmin))).
  cbn. unfold Vector2.lengthSq. cbn. lra.
Defined.

Lemma force_bounded_witness :
  (0 < 1 / 10000 <= 1)%R /\
  (lengthSq (force_dir (1 / 10000)%R (Vector2.mk 0 0)%R
                       (Vector2.mk (1 / 100) 0)%R) <= 1 / (1 / 10000))%R.
Proof.
  assert (Hmin : (0 < 1 / 10000 <= 1)%R) by lra.
  split; [exact Hmin|].
  apply (proj1 (force_bounded (1 / 10000)%R Hmin)).
Defined.

Lemma force_antisymmetric_witness :
  (0 < 1 / 10000)%R /\
  force_dir (1 / 10000)%R (Vector2.mk 1 0)%R (Vector2.mk (-1) 0)%R =
  multiplyScalar
    (force_dir (1 / 10000)%R (Vector2.mk (-1) 0)%R (Vector2.mk 1 0)%R)
    (-1)%R.
Proof.
  assert (Hmin : (0 < 1 / 10000)%R) by lra.
  split; [exact Hmin|].
  apply (proj1 (proj1 (force_antisymmetric (1 / 10000)%R Hmin) _ _)).
Defined.

Lemma skewed_draws_in_disc (i : nat) :
  drawn_in_disc (fst (@skewed_draws R _ i)) /\
  drawn_in_disc (snd (@skewed_draws R _ i)).
Proof.
  unfold skewed_draws, drawn_in_disc, unit_circle, decimal. cbn.
  change (10 ^ Z.of_nat 2)%Z with 100%Z.
  change (10 ^ Z.of_nat 1)%Z with 10%Z.
  destruct (Nat.even i); cbn; repeat split; lra.
Qed.

Lemma sampled_bodies_in_disc_witness :
  (forall i, i < 100 ->
     drawn_in_disc (fst (@skewed_draws R _ i)) /\
     drawn_in_disc (snd (@skewed_draws R _ i))) /\
  Forall (fun b => (Vector2.length (pos b) < 1)%R /\
                   (Vector2.length (vel b) < 2 / 1000)%R)
         (Bounded.create 2%R 100 skewed_draws).
Proof.
  assert (Hd : forall i, i < 100 ->
            drawn_in_disc (fst (@skewed_draws R _ i)) /\
            drawn_in_disc (snd (@skewed_draws R _ i)))
    by (intros i _; apply skewed_draws_in_disc).
  split; [exact Hd|].
  exact (proj2 (sampled_bodies_in_disc 2%R 100 skewed_draws Hd)).
Defined.

Lemma axis_draws_in_ball (i : nat) :
  drawn_in_ball (fst (axis_draws i)) /\ drawn_in_ball (snd (axis_draws i)).
Proof.
  unfold axis_draws, drawn_in_ball, unit_circle. cbn. repeat split; lra.
Qed.

Lemma sampled_bodies_in_ball_witness :
  (forall i, i < 100 ->
     drawn_in_ball (fst (axis_draws i)) /\ drawn_in_ball (snd (axis_draws i)))
  /\
  Forall (fun b => (lengthSq (pos b) < 1)%R /\
                   (lengthSq (vel b) < (2 / 100) * (2 / 100))%R)
         (Unbounded.create 1%R 100 axis_draws).
Proof.
  assert (Hd : forall i, i < 100 ->
            drawn_in_ball (fst (axis_draws i)) /\
            drawn_in_ball (snd (axis_draws i)))
    by (intros i _; apply axis_draws_in_ball).
  split; [exact Hd|].
  exact (proj2 (sampled_bodies_in_ball 1%R 100 axis_draws Hd)).
Defined.

Lemma max_radius_one_body :
  Bounded.max_radius
    [new_Body (Vector2.mk 2 0)%R (Vector2.mk 0 0)%R 2%R] = Some 2%R.
Proof.
  unfold Bounded.max_radius, Vector2.length. cbn. f_equal.
  replace (2 * 2 + 0 * 0)%R with (2 * 2)%R by ring.
  apply sqrt_square. lra.
Qed.

Lemma rescaling_fits_unit_disc_witness :
  Bounded.max_radius
    [new_Body (Vector2.mk 2 0)%R (Vector2.mk 0 0)%R 2%R] = Some 2%R /\
  (0 < 2)%R /\
  Bounded.max_radius
    (Bounded.rescaling
       [new_Body (Vector2.mk 2 0)%R (Vector2.mk 0 0)%R 2%R]) = Some 1%R.
Proof.
  assert (H2 : (0 < 2)%R) by lra.
  split; [exact max_radius_one_body|]. split; [exact H2|].
  exact (proj1 (rescaling_fits_unit_disc _ 2%R max_radius_one_body H2)).
Defined.

Lemma init_mean_momentum_witness :
  0 < 100 /\
  Bounded.weighted_mean vel 100 (Bounded.init 2%R 100 skewed_draws) =
  multiplyScalar
    (Bounded.weighted_mean vel 100 (Bounded.create 2%R 100 skewed_draws))
    (1 - 2)%R.
Proof.
  assert (H : 0 < 100) by lia.
  split; [exact H|].
  exact (init_mean_momentum 2%R 100 skewed_draws H).
Defined.

Lemma two_bodies_stay_inside :
  Forall (fun b => inside (pos b))
    (integrate (1 / 100)%R (accumulate (1 / 10000)%R two_bodies)).
Proof.
  rewrite accumulate_example_real. unfold integrate. cbn [map].
  repeat constructor;
    unfold inside, update, set_acc, set_vel, set_pos; cbn; lra.
Qed.

Lemma bounded_frame_away_from_walls_witness :
  Forall (fun b => inside (pos b))
    (integrate (1 / 100)%R (accumulate (1 / 10000)%R two_bodies)) /\
  total_along Vector2.x vel
    (Bounded.animate (1 / 100)%R (1 / 10000)%R two_bodies) =
  total_along Vector2.x vel two_bodies.
Proof.
  split; [exact two_bodies_stay_inside|].
  apply (bounded_frame_away_from_walls Vector2.x (1 / 100)%R (1 / 10000)%R
           two_bodies linear_x2); [lra|repeat constructor|].
  exact two_bodies_stay_inside.
Defined.
